(** * Captcha generator: a shallow embedding of the verification core

    The development follows the Python sources module by module:

    - [Random]            the draws of Python's [random] module, as an explicit
                          stream of outcomes;
    - [Json]              Python dictionaries and lists as they are handed to
                          [jsonify];
    - [PuzzleCaptcha]     [captcha_generators/puzzle_captcha.py];
    - [ImageCaptcha]      [captcha_generators/image_captcha.py];
    - [CloudflareCaptcha] [captcha_generators/cloudflare_captcha.py];
    - [ImageCache]        [captcha_generators/image_cache.py];
    - [UnsplashClient]    [captcha_generators/unsplash_client.py];
    - [App]               the request handlers of [app.py].

    Python integers are unbounded and are modelled by [Z].  Dictionaries
    used as maps are [gmap]s; dictionaries used as records that end up in a
    response are [Json.t] objects, so that the presence or absence of a key
    is a property one can state. *)

From Stdlib Require Import ZArith Lia Bool Ascii String.
From stdpp Require Import base option list sorting strings pretty gmap.

Local Open Scope string_scope.
Local Open Scope list_scope.
Local Open Scope Z_scope.

(** ** The [random] module *)

Module Random.

(** Every call into [random] consumes outcomes of a stream that the
    environment supplies; an exhausted stream yields [0]. *)
Definition rng := list nat.

Definition next (g : rng) : nat * rng :=
  match g with
  | [] => (0%nat, [])
  | r :: g' => (r, g')
  end.

(** Remove the element at position [i] and return it with the rest. *)
Fixpoint pick {A} (i : nat) (l : list A) : option (A * list A) :=
  match l, i with
  | [], _ => None
  | x :: l', O => Some (x, l')
  | x :: l', S i' =>
      match pick i' l' with
      | Some (y, rest) => Some (y, x :: rest)
      | None => None
      end
  end.

(** [random.sample(population, k)]: [k] draws without replacement.  The
    model stops early on an empty pool, where Python raises. *)
Fixpoint sample {A} (population : list A) (k : nat) (g : rng)
  : list A * rng :=
  match k with
  | O => ([], g)
  | S k' =>
      let (r, g1) := next g in
      match pick (r mod length population) population with
      | None => ([], g1)
      | Some (x, rest) =>
          let (xs, g2) := sample rest k' g1 in (x :: xs, g2)
      end
  end.

(** [random.shuffle(l)]: a uniformly drawn arrangement of [l]. *)
Definition shuffle {A} (l : list A) (g : rng) : list A * rng :=
  sample l (length l) g.

(** [random.choice(l)], [None] where Python raises [IndexError]. *)
Definition choice {A} (l : list A) (g : rng) : option A * rng :=
  let (r, g1) := next g in (l !! (r mod length l)%nat, g1).

(** [random.randint(a, b)], both ends included; Python raises for
    [b < a], a case the generators do not reach. *)
Definition randint (a b : Z) (g : rng) : Z * rng :=
  let (r, g1) := next g in (a + Z.of_nat r mod (b - a + 1), g1).

End Random.

(** ** Python values that reach [jsonify] *)

Module Json.

#[local] Set Warnings "-register-all".

Inductive t : Type :=
| Null
| Bool (b : bool)
| Num (n : Z)
| Str (s : string)
| Arr (items : list t)
| Obj (fields : list (string * t)).

(** [d[k]] on an association list, first binding wins (keys written by a
    dictionary display are distinct). *)
Fixpoint assoc (k : string) (fields : list (string * t)) : option t :=
  match fields with
  | [] => None
  | (k', v) :: rest => if decide (k = k') then Some v else assoc k rest
  end.

Definition get (k : string) (j : t) : option t :=
  match j with
  | Obj fields => assoc k fields
  | _ => None
  end.

Definition as_num (j : t) : option Z :=
  match j with Num n => Some n | _ => None end.

Definition as_arr (j : t) : option (list t) :=
  match j with Arr l => Some l | _ => None end.

(** Every key that occurs anywhere inside a value, at any depth. *)
Fixpoint keys (j : t) : list string :=
  match j with
  | Arr items => flat_map keys items
  | Obj fields =>
      flat_map (fun kv => match kv with (k, v) => k :: keys v end) fields
  | _ => []
  end.

Definition mentions (k : string) (j : t) : bool :=
  bool_decide (k ∈ keys j).

(** The truth value of a Python value: [None], [False], [0], [''], [[]]
    and [{}] are false. *)
Definition truthy (j : t) : bool :=
  match j with
  | Null => false
  | Bool b => b
  | Num n => negb (n =? 0)
  | Str s => negb (bool_decide (s = ""))
  | Arr items => negb (bool_decide (items = []))
  | Obj fields => negb (bool_decide (fields = []))
  end.


End Json.

(** ** [captcha_generators/puzzle_captcha.py] *)

Module PuzzleCaptcha.

(** The two fields of [PuzzleCaptcha.__init__] that the generators read. *)
Record self_t := Self { puzzle_size : Z; piece_size : Z }.

Definition init : self_t := {| puzzle_size := 300; piece_size := 60 |}.

(** The PIL pipeline (background lookup, cropping, masking, darkening,
    PNG and base64 encoding) is outside the model: what it produces for a
    given placement is supplied as a [data:] URI. *)
Record renderer := Renderer {
  sliding_background : Z -> Z -> string;   (* correct_x, piece_y *)
  sliding_piece : Z -> Z -> string;        (* correct_x, piece_y *)
  drag_background : list (Z * Z * Z) -> string;  (* (id, x, y) holes *)
  drag_piece : Z -> Z -> string            (* x, y *)
}.

(** [generate_sliding_puzzle] *)
Definition generate_sliding_puzzle (self : self_t) (R : renderer)
    (g : Random.rng) : Json.t * Random.rng :=
  let (piece_y, g1) :=
    Random.randint 50 (puzzle_size self - piece_size self - 50) g in
  let (correct_x, g2) :=
    Random.randint 100 (puzzle_size self - piece_size self - 50) g1 in
  (Json.Obj
     [ ("type", Json.Str "sliding");
       ("background", Json.Str (sliding_background R correct_x piece_y));
       ("piece", Json.Str (sliding_piece R correct_x piece_y));
       ("piece_y", Json.Num piece_y);
       ("correct_x", Json.Num correct_x);
       ("tolerance", Json.Num 10);
       ("puzzle_width", Json.Num (puzzle_size self));
       ("puzzle_height", Json.Num (puzzle_size self));
       ("piece_size", Json.Num (piece_size self)) ],
   g2).

(** [[(i, j) for i in range(grid_size) for j in range(grid_size)]] *)
Definition available_cells (grid_size : nat) : list (Z * Z) :=
  i ← seq 0 grid_size; j ← seq 0 grid_size; [(Z.of_nat i, Z.of_nat j)].

(** The body of the [for idx, (grid_x, grid_y) in enumerate(...)] loop:
    the truth entry and the piece entry of one selected cell. *)
Definition place (self : self_t) (cell_size : Z) (idx : nat)
    (cell : Z * Z) : Z * Z * Z :=
  let (grid_x, grid_y) := cell in
  (Z.of_nat idx,
   grid_x * cell_size + (cell_size - piece_size self) / 2,
   grid_y * cell_size + (cell_size - piece_size self) / 2).

Definition position_entry (p : Z * Z * Z) : Json.t :=
  let '(id, x, y) := p in
  Json.Obj [ ("id", Json.Num id); ("x", Json.Num x); ("y", Json.Num y) ].

Definition piece_entry (R : renderer) (p : Z * Z * Z) : Json.t :=
  let '(id, x, y) := p in
  Json.Obj [ ("id", Json.Num id);
             ("image", Json.Str (drag_piece R x y));
             ("correct_x", Json.Num x);
             ("correct_y", Json.Num y) ].

(** [generate_drag_puzzle] *)
Definition generate_drag_puzzle (self : self_t) (R : renderer)
    (g : Random.rng) : Json.t * Random.rng :=
  let grid_size := 3%nat in
  let cell_size := puzzle_size self / Z.of_nat grid_size in
  let (selected_cells, g1) :=
    Random.sample (available_cells grid_size) 3 g in
  let placed := imap (place self cell_size) selected_cells in
  let positions := position_entry <$> placed in
  let (pieces, g2) := Random.shuffle (piece_entry R <$> placed) g1 in
  (Json.Obj
     [ ("type", Json.Str "drag");
       ("background", Json.Str (drag_background R placed));
       ("pieces", Json.Arr pieces);
       ("positions", Json.Arr positions);
       ("tolerance", Json.Num 15);
       ("puzzle_width", Json.Num (puzzle_size self));
       ("puzzle_height", Json.Num (puzzle_size self));
       ("piece_size", Json.Num (piece_size self)) ],
   g2).

(** [verify_sliding] *)
Definition verify_sliding (submitted_x correct_x tolerance : Z) : bool :=
  Z.abs (submitted_x - correct_x) <=? tolerance.

(** A submitted entry [{id, x, y}] and a truth entry
    [{id, correct_x, correct_y}], as the docstring of [verify_drag]
    gives them. *)
Record submitted_t := Submitted { s_id : Z; s_x : Z; s_y : Z }.
Record correct_t := Correct { c_id : Z; c_x : Z; c_y : Z }.

(** [{p['id']: (p['correct_x'], p['correct_y']) for p in correct_positions}]:
    a later entry overwrites an earlier one with the same id. *)
Definition correct_map (correct_positions : list correct_t)
  : gmap Z (Z * Z) :=
  foldl (fun m p => <[c_id p := (c_x p, c_y p)]> m) ∅ correct_positions.

(** The [for submitted in submitted_positions] loop with its two early
    returns. *)
Fixpoint verify_drag_loop (m : gmap Z (Z * Z)) (tolerance : Z)
    (submitted_positions : list submitted_t) : bool :=
  match submitted_positions with
  | [] => true
  | submitted :: rest =>
      match m !! s_id submitted with
      | None => false
      | Some (correct_x, correct_y) =>
          if (tolerance <? Z.abs (s_x submitted - correct_x))
             || (tolerance <? Z.abs (s_y submitted - correct_y))
          then false
          else verify_drag_loop m tolerance rest
      end
  end.

(** [verify_drag] *)
Definition verify_drag (submitted_positions : list submitted_t)
    (correct_positions : list correct_t) (tolerance : Z) : bool :=
  if negb (length submitted_positions =? length correct_positions)%nat
  then false
  else verify_drag_loop (correct_map correct_positions) tolerance
         submitted_positions.

End PuzzleCaptcha.

(** ** [captcha_generators/image_captcha.py] *)

Module ImageCaptcha.

(** [list(self.categories.keys())], in insertion order. *)
Definition categories : list string :=
  [ "car"; "tree"; "house"; "sun"; "mountain";
    "flower"; "ocean"; "dog"; "cat"; "bird" ].

(** The [while len(selected_wrong) < 6] loop: it runs [n] more times. *)
Fixpoint fill_wrong (wrong_categories selected_wrong : list string)
    (n : nat) (g : Random.rng) : option (list string * Random.rng) :=
  match n with
  | O => Some (selected_wrong, g)
  | S n' =>
      match Random.choice wrong_categories g with
      | (None, _) => None
      | (Some c, g1) =>
          fill_wrong wrong_categories (selected_wrong ++ [c]) n' g1
      end
  end.

(** The [for i in range(9)] loop over the remaining [indices], with
    the running [wrong_idx]; [None] where [selected_wrong[wrong_idx]]
    raises [IndexError].  The rendered picture of a cell (Unsplash or
    generated, then base64) is supplied by [picture]. *)
Fixpoint fill_grid (picture : string -> Z -> string)
    (target_category : string) (correct_indices : list Z)
    (selected_wrong : list string) (wrong_idx : nat) (indices : list Z)
  : option (list Json.t) :=
  match indices with
  | [] => Some []
  | i :: indices' =>
      let here :=
        if decide (i ∈ correct_indices)
        then Some (target_category, true, wrong_idx)
        else (fun c => (c, false, S wrong_idx)) <$>
               selected_wrong !! wrong_idx in
      match here with
      | None => None
      | Some (cat, is_correct, wrong_idx') =>
          match fill_grid picture target_category correct_indices
                  selected_wrong wrong_idx' indices' with
          | None => None
          | Some images =>
              Some (Json.Obj [ ("image", Json.Str (picture cat i));
                               ("category", Json.Str cat);
                               ("is_correct", Json.Bool is_correct);
                               ("index", Json.Num i) ] :: images)
          end
      end
  end.

(** [range(n)] *)
Definition range (n : nat) : list Z := Z.of_nat <$> seq 0 n.

(** [sorted] on a list of integers. *)
Definition sorted (l : list Z) : list Z := merge_sort Z.le l.

(** [generate] *)
Definition generate (picture : string -> Z -> string) (g : Random.rng)
  : option (Json.t * Random.rng) :=
  match Random.choice categories g with
  | (None, _) => None
  | (Some target_category, g1) =>
      let wrong_categories :=
        filter (fun c => c ≠ target_category) categories in
      let chosen :=
        if (6 <=? length wrong_categories)%nat
        then Some (Random.sample wrong_categories 6 g1)
        else fill_wrong wrong_categories wrong_categories
               (6 - length wrong_categories) g1 in
      match chosen with
      | None => None
      | Some (selected_wrong, g2) =>
          let (correct_indices, g3) := Random.sample (range 9) 3 g2 in
          match fill_grid picture target_category correct_indices
                  selected_wrong 0 (range 9) with
          | None => None
          | Some images =>
              Some (Json.Obj
                      [ ("target", Json.Str target_category);
                        ("prompt",
                         Json.Str ("Select all images containing a "
                                   +:+ target_category));
                        ("images", Json.Arr images);
                        ("correct_indices",
                         Json.Arr (Json.Num <$> sorted correct_indices));
                        ("required_selections", Json.Num 3) ],
                    g3)
          end
      end
  end.

End ImageCaptcha.

(** ** [captcha_generators/cloudflare_captcha.py] *)

Module CloudflareCaptcha.

(** The value stored under a token.  Times are readings of [time.time()],
    in ticks of the clock. *)
Record token_info := TokenInfo {
  challenge_id : string;
  created_at : Z;
  expires_at : Z
}.

Record self_t := Self {
  valid_tokens : gmap string token_info;
  token_expiry : Z
}.

(** [__init__] *)
Definition init : self_t := {| valid_tokens := ∅; token_expiry := 300 |}.

(** What the environment contributes to one [generate_token] call: the
    SHA-256 digest of the token data, and the two later clock readings. *)
Record minting := Minting {
  digest : string;
  created_reading : Z;
  expiry_reading : Z
}.

(** [generate_token] *)
Definition generate_token (self : self_t) (challenge_id : string)
    (env : minting) : string * self_t :=
  let token := digest env in
  (token,
   {| valid_tokens :=
        <[token := {| challenge_id := challenge_id;
                      created_at := created_reading env;
                      expires_at := expiry_reading env + token_expiry self |}]>
          (valid_tokens self);
      token_expiry := token_expiry self |}).

(** The dictionary comprehension that drops the expired entries. *)
Definition sweep (current_time : Z) (tokens : gmap string token_info)
  : gmap string token_info :=
  filter (fun kv => expires_at kv.2 > current_time) tokens.

Definition verification_successful : Json.t :=
  Json.Obj [ ("success", Json.Bool true);
             ("message", Json.Str "Verification successful") ].

Definition invalid_or_expired : Json.t :=
  Json.Obj [ ("success", Json.Bool false);
             ("message", Json.Str "Invalid or expired token") ].

(** [verify_token], with the clock reading [current_time]. *)
Definition verify_token (self : self_t) (token : string)
    (current_time : Z) : Json.t * self_t :=
  let swept := sweep current_time (valid_tokens self) in
  match swept !! token with
  | Some _ =>
      (verification_successful,
       {| valid_tokens := delete token swept;
          token_expiry := token_expiry self |})
  | None =>
      (invalid_or_expired,
       {| valid_tokens := swept; token_expiry := token_expiry self |})
  end.

Definition interaction_required : Json.t :=
  Json.Obj [ ("success", Json.Bool false);
             ("error", Json.Str "Human interaction required") ].

(** [complete_challenge] *)
Definition complete_challenge (self : self_t) (challenge_id : string)
    (user_interaction : bool) (env : minting) : Json.t * self_t :=
  if negb user_interaction then (interaction_required, self)
  else
    let (token, self') := generate_token self challenge_id env in
    (Json.Obj [ ("success", Json.Bool true);
                ("token", Json.Str token);
                ("expires_in", Json.Num (token_expiry self)) ],
     self').

(** [generate_challenge_id]: the first 32 characters of the SHA-256
    hexdigest that the environment supplies. *)
Definition generate_challenge_id (hexdigest : string) : string :=
  substring 0 32 hexdigest.

(** [generate] *)
Definition generate (hexdigest : string) : Json.t :=
  let challenge_id := generate_challenge_id hexdigest in
  Json.Obj [ ("challenge_id", Json.Str challenge_id);
             ("site_key",
              Json.Str ("test_site_key_" +:+ substring 0 8 challenge_id));
             ("type", Json.Str "invisible");
             ("theme", Json.Str "auto") ].


End CloudflareCaptcha.

(** ** [captcha_generators/image_cache.py] *)

Module ImageCache.

(** A PIL image, as far as the cache looks at it. *)
Record image := Image { pixels : string; mode : string; size : Z * Z }.

Definition convert (m : string) (img : image) : image :=
  {| pixels := pixels img; mode := m; size := size img |}.

Definition resize (sz : Z * Z) (img : image) : image :=
  {| pixels := pixels img; mode := mode img; size := sz |}.

(** A directory entry: its name, [st_mtime], and what [Image.open] makes
    of its bytes ([None]: it raises). *)
Record file := File { name : string; mtime : Z; data : option image }.

(** [metadata['categories'][category]] *)
Record entry := Entry { count : nat; last_updated : option Z }.

(** The constructor arguments. *)
Record config := Config {
  cache_dir : string;
  max_images_per_category : Z;
  cache_expiry_days : Z
}.

(** [ImageCache()] *)
Definition default_config (root : string) : config :=
  {| cache_dir := root; max_images_per_category := 20;
     cache_expiry_days := 7 |}.

(** The in-memory metadata together with the directories below
    [cache_dir]: each one is its listing, in the order the file system
    reports it. *)
Record state := State {
  categories : gmap string entry;
  last_cleanup : option Z;
  disk : gmap string (list file)
}.


Definition with_disk (d : gmap string (list file)) (st : state) : state :=
  {| categories := categories st; last_cleanup := last_cleanup st;
     disk := d |}.

Definition with_categories (c : gmap string entry) (st : state) : state :=
  {| categories := c; last_cleanup := last_cleanup st; disk := disk st |}.

(** [str.isalnum] on the code points below 256. *)
Definition isalnum (c : ascii) : bool :=
  let n := Z.of_N (N_of_ascii c) in
  ((48 <=? n) && (n <=? 57)) || ((65 <=? n) && (n <=? 90))
  || ((97 <=? n) && (n <=? 122))
  || (n =? 170) || (n =? 178) || (n =? 179) || (n =? 181) || (n =? 185)
  || (n =? 186) || ((188 <=? n) && (n <=? 190))
  || ((192 <=? n) && (n <=? 214)) || ((216 <=? n) && (n <=? 246))
  || (248 <=? n).

Definition safe_char (c : ascii) : ascii :=
  if isalnum c || bool_decide (c = "-"%char) || bool_decide (c = "_"%char)
  then c else "_"%char.

(** [safe_category] of [_get_category_dir] *)
Fixpoint sanitize (category : string) : string :=
  match category with
  | EmptyString => EmptyString
  | String c rest => String (safe_char c) (sanitize rest)
  end.

(** [category_dir.mkdir(parents=True, exist_ok=True)] *)
Definition mkdir (d : string) (st : state) : state :=
  match disk st !! d with
  | Some _ => st
  | None => with_disk (<[d := []]> (disk st)) st
  end.

(** [_get_category_dir]: a directory below the root is named by its last
    component. *)
Definition _get_category_dir (category : string) (st : state)
  : string * state :=
  let safe_category := sanitize category in
  (safe_category, mkdir safe_category st).

Definition listing (d : string) (st : state) : list file :=
  default [] (disk st !! d).

Fixpoint ends_with (suffix s : string) : bool :=
  if decide (s = suffix) then true
  else match s with
       | EmptyString => false
       | String _ s' => ends_with suffix s'
       end.

(** [list(d.glob('*.jpg')) + list(d.glob('*.png'))] *)
Definition glob_images (files : list file) : list file :=
  filter (fun f => ends_with ".jpg" (name f)) files
  ++ filter (fun f => ends_with ".png" (name f)) files.

(** [file_path.unlink()] *)
Definition unlink (d n : string) (st : state) : state :=
  with_disk (<[d := filter (fun f => name f ≠ n) (listing d st)]> (disk st))
    st.

(** Writing a file replaces an entry of that name, or adds one. *)
Definition write (d : string) (f : file) (st : state) : state :=
  let files := listing d st in
  let files' :=
    if decide (name f ∈ name <$> files)
    then (fun g => if decide (name g = name f) then f else g) <$> files
    else files ++ [f] in
  with_disk (<[d := files']> (disk st)) st.

(** The [for file_path in selected_files] loop of [get_cached_images]. *)
Fixpoint load (d : string) (size : option (Z * Z)) (selected : list file)
    (st : state) : list image * state :=
  match selected with
  | [] => ([], st)
  | f :: rest =>
      match data f with
      | Some img =>
          let img := convert "RGB" img in
          let img := match size with
                     | Some sz => resize sz img
                     | None => img
                     end in
          let (images, st') := load d size rest st in
          (img :: images, st')
      | None => load d size rest (unlink d (name f) st)
      end
  end.

(** [get_cached_images] *)
Definition get_cached_images (category : string) (count : nat)
    (size : option (Z * Z)) (g : Random.rng) (st : state)
  : list image * Random.rng * state :=
  let (category_dir, st1) := _get_category_dir category st in
  let image_files := glob_images (listing category_dir st1) in
  match image_files with
  | [] => ([], g, st1)
  | _ =>
      let (selected_files, g1) :=
        Random.sample image_files (count `min` length image_files) g in
      let (images, st2) := load category_dir size selected_files st1 in
      (images, g1, st2)
  end.

(** [get_cache_count] *)
Definition get_cache_count (category : string) (st : state)
  : nat * state :=
  let (category_dir, st1) := _get_category_dir category st in
  (length (glob_images (listing category_dir st1)), st1).

(** [has_enough_cached] *)
Definition has_enough_cached (category : string) (min_count : nat)
    (st : state) : bool * state :=
  let (n, st1) := get_cache_count category st in ((min_count <=? n)%nat, st1).

(** [list.sort(key=st_mtime)]: stable, oldest first. *)
Fixpoint insert_by_mtime (f : file) (l : list file) : list file :=
  match l with
  | [] => [f]
  | g :: l' =>
      if mtime f <=? mtime g then f :: l else g :: insert_by_mtime f l'
  end.

Definition sort_by_mtime (l : list file) : list file :=
  foldr insert_by_mtime [] l.

(** [_cleanup_category].  The slice [image_files[:files_to_remove]] is
    taken with a positive bound, hence a [take]. *)
Definition _cleanup_category (cfg : config) (category : string)
    (st : state) : state :=
  let (category_dir, st1) := _get_category_dir category st in
  let image_files := glob_images (listing category_dir st1) in
  if max_images_per_category cfg <? Z.of_nat (length image_files) then
    let image_files := sort_by_mtime image_files in
    let files_to_remove :=
      Z.of_nat (length image_files) - max_images_per_category cfg in
    foldl (fun st' f => unlink category_dir (name f) st') st1
      (take (Z.to_nat files_to_remove) image_files)
  else st1.

(** What the environment contributes to one [save_image] call: the
    generated identifier (used when none is given), whether the write
    goes through, the modification time the file gets, and the reading
    of [datetime.now()]. *)
Record saving := Saving {
  generated_id : string;
  writable : bool;
  stamp : Z;
  now : Z
}.

(** [save_image]; [None] is the [except] branch. *)
Definition save_image (cfg : config) (img : image) (category : string)
    (image_id : option string) (env : saving) (st : state)
  : option string * state :=
  let (category_dir, st1) := _get_category_dir category st in
  let image_id := default (generated_id env) image_id in
  let filename := image_id +:+ ".jpg" in
  if negb (writable env) then (None, st1)
  else
    let img := if decide (mode img = "RGB") then img
               else convert "RGB" img in
    let st2 :=
      write category_dir
        {| name := filename; mtime := stamp env; data := Some img |} st1 in
    let st3 :=
      match categories st2 !! category with
      | Some _ => st2
      | None =>
          with_categories
            (<[category := {| count := 0; last_updated := None |}]>
               (categories st2)) st2
      end in
    let (n, st4) := get_cache_count category st3 in
    let st5 :=
      with_categories
        (alter (fun e => {| count := count e;
                            last_updated := Some (now env) |}) category
           (alter (fun e => {| count := n;
                               last_updated := last_updated e |}) category
              (categories st4))) st4 in
    let st6 := _cleanup_category cfg category st5 in
    (Some (cache_dir cfg +:+ "/" +:+ category_dir +:+ "/" +:+ filename),
     st6).

(** The part of [s] from its last dot on, if it has a dot. *)
Fixpoint from_last_dot (s : string) : option string :=
  match s with
  | EmptyString => None
  | String c s' =>
      match from_last_dot s' with
      | Some e => Some e
      | None => if decide (c = "."%char) then Some s else None
      end
  end.

(** [Path.suffix]: the last dot of the name and what follows, unless that
    dot opens or closes the name. *)
Definition suffix (n : string) : string :=
  match n with
  | EmptyString => ""
  | String _ rest =>
      match from_last_dot rest with
      | Some e => if decide (e = ".") then "" else e
      | None => ""
      end
  end.






End ImageCache.

(** ** [captcha_generators/unsplash_client.py] *)

Module UnsplashClient.

Import ImageCache.

(** What [requests.get] on an API endpoint comes back with. *)
Inductive reply :=
| Raised
| Response (status_code : Z) (body : Json.t).

Inductive request :=
| GetRandom (query : option string)
| GetSearch (query : string) (per_page : Z)
| GetUrl (url : string).

(** The remote source.  [picture url] is the image behind [url], [None]
    when the download does not give a decodable image with status 200. *)
Record remote := Remote {
  api : request -> reply;
  picture : string -> option image
}.

(** Everything outside the client object that a call can read or
    change: the global [image_cache], the draws of [random], the
    conditions of the upcoming [save_image] calls, and the requests sent
    to the remote source so far (latest last). *)
Record world := World {
  cache : ImageCache.state;
  gen : Random.rng;
  savings : list saving;
  sent : list request
}.

Record self_t := Self {
  api_key : option string;
  use_cache : bool;
  cache_only_mode : bool
}.

(** [set_cache_mode] *)
Definition set_cache_mode (self : self_t) (use_cache0 cache_only : bool)
  : self_t :=
  {| api_key := api_key self; use_cache := use_cache0;
     cache_only_mode := cache_only |}.

(** Truth value of an optional string: [None] and [''] are false. *)
Definition truthy (s : option string) : bool :=
  match s with
  | Some s => negb (bool_decide (s = ""))
  | None => false
  end.

(** A state monad over the world. *)
Definition M (A : Type) : Type := world -> A * world.

Definition ret {A} (a : A) : M A := fun w => (a, w).

Definition bind {A B} (m : M A) (k : A -> M B) : M B :=
  fun w => let (a, w') := m w in k a w'.

Notation "'do' x <- m ; k" := (bind m (fun x => k))
  (at level 10, x name, m at level 100, k at level 200).

Section Client.

Variable cfg : config.
Variable net : remote.

(** [image_cache.get_cached_images] *)
Definition cached_images (category : string) (count : nat)
    (size : Z * Z) : M (list image) :=
  fun w =>
    let '(images, g, st) :=
      get_cached_images category count (Some size) (gen w) (cache w) in
    (images,
     {| cache := st; gen := g; savings := savings w; sent := sent w |}).

(** [image_cache.has_enough_cached] *)
Definition enough_cached (category : string) (min_count : nat)
  : M bool :=
  fun w =>
    let (b, st) := has_enough_cached category min_count (cache w) in
    (b, {| cache := st; gen := gen w; savings := savings w;
           sent := sent w |}).

(** [image_cache.save_image]; once the supplied conditions are used
    up, writes succeed with stamp [0]. *)
Definition cache_image (img : image) (category image_id : string)
  : M (option string) :=
  fun w =>
    let (env, rest) :=
      match savings w with
      | env :: rest => (env, rest)
      | [] => ({| generated_id := ""; writable := true; stamp := 0;
                  now := 0 |}, [])
      end in
    let (path, st) :=
      save_image cfg img category (Some image_id) env (cache w) in
    (path, {| cache := st; gen := gen w; savings := rest;
              sent := sent w |}).

(** [requests.get] on an API endpoint. *)
Definition get (r : request) : M reply :=
  fun w =>
    (api net r,
     {| cache := cache w; gen := gen w; savings := savings w;
        sent := sent w ++ [r] |}).

(** [_download_and_resize] *)
Definition _download_and_resize (url : string) (size : Z * Z)
  : M (option image) :=
  fun w =>
    ((fun img => resize size (convert "RGB" img)) <$> picture net url,
     {| cache := cache w; gen := gen w; savings := savings w;
        sent := sent w ++ [GetUrl url] |}).

(** [d.get('urls', {}).get(k)], kept when it is a non-empty string. *)
Definition url_of (k : string) (d : Json.t) : option string :=
  match Json.get "urls" d ≫= Json.get k with
  | Some (Json.Str s) => if decide (s = "") then None else Some s
  | _ => None
  end.

(** [d.get('id', '')]; the API gives identifiers as strings. *)
Definition id_of (d : Json.t) : string :=
  match Json.get "id" d with
  | Some (Json.Str s) => s
  | _ => ""
  end.

(** [a or b] on optional strings. *)
Definition or_else (a b : option string) : option string :=
  match a with Some _ => a | None => b end.

(** [query or 'random'] *)
Definition category_of (query : option string) : string :=
  if truthy query then default "random" query else "random".

(** [get_random_image] *)
Definition get_random_image (self : self_t) (query : option string)
    (size : Z * Z) : M (option image) :=
  let category := category_of query in
  do hit <- (if use_cache self
             then do cached_images <- cached_images category 1 size ;
                  ret (head cached_images)
             else ret None) ;
  match hit with
  | Some img => ret (Some img)
  | None =>
      if cache_only_mode self then ret None
      else if negb (truthy (api_key self)) then ret None
      else
        do response <- get (GetRandom
                           (if truthy query then query else None)) ;
        match response with
        | Raised => ret None
        | Response status_code data =>
            if status_code =? 200 then
              match or_else (url_of "small" data)
                      (url_of "regular" data) with
              | None => ret None
              | Some image_url =>
                  do img <- _download_and_resize image_url size ;
                  match img with
                  | Some i =>
                      if use_cache self
                      then do _x <- cache_image i category (id_of data) ;
                           ret img
                      else ret img
                  | None => ret img
                  end
              end
            else ret None
        end
  end.

(** The [for photo in results] loop of [get_images_by_query]. *)
Fixpoint collect (self : self_t) (category : string) (size : Z * Z)
    (results : list Json.t) (images : list image) : M (list image) :=
  match results with
  | [] => ret images
  | photo :: rest =>
      match or_else (url_of "small" photo) (url_of "thumb" photo) with
      | None => collect self category size rest images
      | Some image_url =>
          do img <- _download_and_resize image_url size ;
          match img with
          | None => collect self category size rest images
          | Some i =>
              if use_cache self
              then do _x <- cache_image i category (id_of photo) ;
                   collect self category size rest (images ++ [i])
              else collect self category size rest (images ++ [i])
          end
      end
  end.

(** [get_images_by_query] *)
Definition get_images_by_query (self : self_t) (query : string)
    (count : nat) (size : Z * Z) : M (list image) :=
  let category := query in
  do served <- (if use_cache self then
                  do enough <- enough_cached category count ;
                  if enough then
                    do cached_images <-
                      cached_images category count size ;
                    if (count <=? length cached_images)%nat
                    then ret (Some (take count cached_images))
                    else ret None
                  else ret None
                else ret None) ;
  match served with
  | Some images => ret images
  | None =>
      if cache_only_mode self then cached_images category count size
      else if negb (truthy (api_key self))
      then cached_images category count size
      else
        let fetch_count := Z.of_nat count `max` 10 in
        do response <- get (GetSearch query fetch_count) ;
        match response with
        | Raised => cached_images category count size
        | Response status_code data =>
            if status_code =? 200 then
              let results :=
                default [] (Json.get "results" data ≫= Json.as_arr) in
              do images <- collect self category size results [] ;
              ret (take count images)
            else cached_images category count size
        end
  end.

(** [image_cache.get_cache_count] *)
Definition cache_count (category : string) : M nat :=
  fun w =>
    let (n, st) := get_cache_count category (cache w) in
    (n, {| cache := st; gen := gen w; savings := savings w;
           sent := sent w |}).

(** [prefetch_category]; it returns nothing. *)
Definition prefetch_category (self : self_t) (query : string)
    (count : nat) (size : Z * Z) : M unit :=
  do current_count <- cache_count query ;
  if (current_count <? count)%nat then
    let needed := (count - current_count)%nat in
    do _x <- get_images_by_query self query needed size ;
    ret tt
  else ret tt.

End Client.

End UnsplashClient.

(** ** [app.py]: the challenge and verification handlers *)

Module App.

(** A dictionary display [{k: d[k] for the listed k}]; [None] is the
    [KeyError] of a missing key. *)
Definition project (ks : list string) (d : Json.t)
  : option (list (string * Json.t)) :=
  mapM (fun k => v ← Json.get k d; Some (k, v)) ks.

(** The same display over every element of a list. *)
Definition project_each (ks : list string) (l : Json.t)
  : option (list Json.t) :=
  Json.as_arr l ≫= mapM (fun d => Json.Obj <$> project ks d).

(** [generate_image_captcha] *)
Definition generate_image_captcha (picture : string -> Z -> string)
    (g : Random.rng) (session : gmap string Json.t)
  : option (Json.t * gmap string Json.t * Random.rng) :=
  '(result, g') ← ImageCaptcha.generate picture g;
  correct_indices ← Json.get "correct_indices" result;
  required_selections ← Json.get "required_selections" result;
  let session :=
    <["image_required_selections" := required_selections]>
      (<["image_captcha_answers" := correct_indices]> session) in
  images ← Json.get "images" result ≫= project_each ["image"; "index"];
  prompt ← Json.get "prompt" result;
  Some (Json.Obj [ ("prompt", prompt);
                   ("images", Json.Arr images);
                   ("required_selections", required_selections) ],
        session, g').

(** [generate_sliding_puzzle] *)
Definition generate_sliding_puzzle (R : PuzzleCaptcha.renderer)
    (g : Random.rng) (session : gmap string Json.t)
  : option (Json.t * gmap string Json.t * Random.rng) :=
  let (result, g') :=
    PuzzleCaptcha.generate_sliding_puzzle PuzzleCaptcha.init R g in
  correct_x ← Json.get "correct_x" result;
  tolerance ← Json.get "tolerance" result;
  let session :=
    <["sliding_puzzle_tolerance" := tolerance]>
      (<["sliding_puzzle_answer" := correct_x]> session) in
  response ← project [ "background"; "piece"; "piece_y"; "puzzle_width";
                       "puzzle_height"; "piece_size" ] result;
  Some (Json.Obj response, session, g').

(** [generate_drag_puzzle] *)
Definition generate_drag_puzzle (R : PuzzleCaptcha.renderer)
    (g : Random.rng) (session : gmap string Json.t)
  : option (Json.t * gmap string Json.t * Random.rng) :=
  let (result, g') :=
    PuzzleCaptcha.generate_drag_puzzle PuzzleCaptcha.init R g in
  answers ← Json.get "pieces" result
            ≫= project_each ["id"; "correct_x"; "correct_y"];
  tolerance ← Json.get "tolerance" result;
  let session :=
    <["drag_puzzle_tolerance" := tolerance]>
      (<["drag_puzzle_answers" := Json.Arr answers]> session) in
  pieces ← Json.get "pieces" result ≫= project_each ["id"; "image"];
  background ← Json.get "background" result;
  positions ← Json.get "positions" result;
  rest ← project ["puzzle_width"; "puzzle_height"; "piece_size"] result;
  Some (Json.Obj ([ ("background", background);
                    ("pieces", Json.Arr pieces);
                    ("positions", positions) ] ++ rest),
        session, g').

Definition reply (success : bool) (message : string) : Json.t :=
  Json.Obj [ ("success", Json.Bool success);
             ("message", Json.Str message) ].

(** [verify_image_captcha], on the three values it reads: the request's
    [selected_indices] (default [[]]), the session's
    [image_captcha_answers] (default [[]]) and
    [image_required_selections] (default [3]). *)
Definition verify_image_captcha (selected_indices correct_indices : list Z)
    (required : Z) : Json.t :=
  if decide (ImageCaptcha.sorted selected_indices
             = ImageCaptcha.sorted correct_indices)
  then reply true "Correct! All images selected correctly."
  else if Z.of_nat (length selected_indices) <? required
  then reply false ("Please select " +:+ pretty required +:+ " images.")
  else reply false "Wrong selection. Try again.".

(** [verify_sliding_puzzle], on the values it reads: the request's [x]
    and the session's answer and tolerance. *)
Definition verify_sliding_puzzle (submitted_x correct_x tolerance : Z)
  : Json.t :=
  if PuzzleCaptcha.verify_sliding submitted_x correct_x tolerance
  then reply true "Puzzle solved correctly!"
  else reply false "Incorrect position. Try again.".

(** Reading a submitted entry and a stored answer off their
    dictionaries; [None] where a subscript raises. *)
Definition submitted_of (d : Json.t) : option PuzzleCaptcha.submitted_t :=
  id ← Json.get "id" d ≫= Json.as_num;
  x ← Json.get "x" d ≫= Json.as_num;
  y ← Json.get "y" d ≫= Json.as_num;
  Some (PuzzleCaptcha.Submitted id x y).

Definition correct_of (d : Json.t) : option PuzzleCaptcha.correct_t :=
  id ← Json.get "id" d ≫= Json.as_num;
  x ← Json.get "correct_x" d ≫= Json.as_num;
  y ← Json.get "correct_y" d ≫= Json.as_num;
  Some (PuzzleCaptcha.Correct id x y).

(** [verify_drag_puzzle]: the request body [data] and the session.  The
    entries are read before the comparison starts. *)
Definition verify_drag_puzzle (data : Json.t)
    (session : gmap string Json.t) : option Json.t :=
  submitted_positions ←
    Json.as_arr (default (Json.Arr []) (Json.get "positions" data))
    ≫= mapM submitted_of;
  correct_answers ←
    Json.as_arr (default (Json.Arr []) (session !! "drag_puzzle_answers"))
    ≫= mapM correct_of;
  tolerance ←
    Json.as_num (default (Json.Num 15) (session !! "drag_puzzle_tolerance"));
  Some (if PuzzleCaptcha.verify_drag submitted_positions correct_answers
             tolerance
        then reply true "All pieces placed correctly!"
        else reply false "Some pieces are not in the right position.").

(** [generate_cloudflare_captcha] *)
Definition generate_cloudflare_captcha (hexdigest : string)
    (session : gmap string Json.t) : option (Json.t * gmap string Json.t) :=
  let result := CloudflareCaptcha.generate hexdigest in
  challenge_id ← Json.get "challenge_id" result;
  Some (result, <["cloudflare_challenge_id" := challenge_id]> session).

Definition no_active_challenge : Json.t :=
  Json.Obj [ ("success", Json.Bool false);
             ("error", Json.Str "No active challenge") ].

Definition no_token_provided : Json.t :=
  Json.Obj [ ("success", Json.Bool false);
             ("message", Json.Str "No token provided") ].

(** [a or b] on values that may be missing. *)
Definition or_value (a b : option Json.t) : option Json.t :=
  match a with
  | Some v => if Json.truthy v then a else b
  | None => b
  end.

(** [complete_cloudflare_captcha], over the session and the token store.
    A challenge id or token that is not a string is outside the model
    ([None]). *)
Definition complete_cloudflare_captcha (session : gmap string Json.t)
    (store : CloudflareCaptcha.self_t) (env : CloudflareCaptcha.minting)
  : option (Json.t * gmap string Json.t * CloudflareCaptcha.self_t) :=
  match session !! "cloudflare_challenge_id" with
  | Some (Json.Str challenge_id) =>
      if bool_decide (challenge_id = "")
      then Some (no_active_challenge, session, store)
      else
        let (result, store') :=
          CloudflareCaptcha.complete_challenge store challenge_id true env in
        success ← Json.get "success" result;
        if Json.truthy success
        then token ← Json.get "token" result;
             Some (result, <["cloudflare_token" := token]> session, store')
        else Some (result, session, store')
  | Some v =>
      if Json.truthy v then None
      else Some (no_active_challenge, session, store)
  | None => Some (no_active_challenge, session, store)
  end.

(** [verify_cloudflare_captcha], with the request body [data] and the
    clock reading of [verify_token]. *)
Definition verify_cloudflare_captcha (data : Json.t)
    (session : gmap string Json.t) (store : CloudflareCaptcha.self_t)
    (current_time : Z) : option (Json.t * CloudflareCaptcha.self_t) :=
  match or_value (Json.get "token" data) (session !! "cloudflare_token") with
  | Some (Json.Str token) =>
      if bool_decide (token = "") then Some (no_token_provided, store)
      else Some (CloudflareCaptcha.verify_token store token current_time)
  | Some v =>
      if Json.truthy v then None else Some (no_token_provided, store)
  | None => Some (no_token_provided, store)
  end.


(** [verify_image_captcha], from the request body and the session. *)
Definition verify_image_captcha_request (data : Json.t)
    (session : gmap string Json.t) : option Json.t :=
  selected_indices ←
    Json.as_arr (default (Json.Arr []) (Json.get "selected_indices" data))
    ≫= mapM Json.as_num;
  correct_indices ←
    Json.as_arr (default (Json.Arr []) (session !! "image_captcha_answers"))
    ≫= mapM Json.as_num;
  required ←
    Json.as_num
      (default (Json.Num 3) (session !! "image_required_selections"));
  Some (verify_image_captcha selected_indices correct_indices required).

(** [verify_sliding_puzzle], from the request body and the session. *)
Definition verify_sliding_puzzle_request (data : Json.t)
    (session : gmap string Json.t) : option Json.t :=
  submitted_x ← Json.as_num (default (Json.Num 0) (Json.get "x" data));
  correct_x ←
    Json.as_num (default (Json.Num 0) (session !! "sliding_puzzle_answer"));
  tolerance ←
    Json.as_num
      (default (Json.Num 10) (session !! "sliding_puzzle_tolerance"));
  Some (verify_sliding_puzzle submitted_x correct_x tolerance).


End App.

(** * Properties *)

(** ** Puzzle verification *)

Module PuzzleProofs.

Import PuzzleCaptcha.

Lemma verify_sliding_true submitted_x correct_x tolerance :
  verify_sliding submitted_x correct_x tolerance = true
  <-> Z.abs (submitted_x - correct_x) <= tolerance.
Proof. unfold verify_sliding. apply Z.leb_le. Qed.

Lemma verify_sliding_false submitted_x correct_x tolerance :
  verify_sliding submitted_x correct_x tolerance = false
  <-> tolerance < Z.abs (submitted_x - correct_x).
Proof. unfold verify_sliding. apply Z.leb_gt. Qed.

(** C3.  [verify_sliding] answers [true] exactly when the submitted
    abscissa is at most [tolerance] away from the correct one; a
    submission exactly [tolerance] away is accepted, one at distance
    [tolerance + 1] is rejected. *)
Theorem verify_sliding_spec (submitted_x correct_x tolerance : Z) :
  (verify_sliding submitted_x correct_x tolerance = true
   <-> Z.abs (submitted_x - correct_x) <= tolerance)
  /\ (Z.abs (submitted_x - correct_x) = tolerance ->
      verify_sliding submitted_x correct_x tolerance = true)
  /\ (Z.abs (submitted_x - correct_x) = tolerance + 1 ->
      verify_sliding submitted_x correct_x tolerance = false).
Proof.
  split; [apply verify_sliding_true|split].
  - intros Hd. apply verify_sliding_true. lia.
  - intros Hd. apply verify_sliding_false. lia.
Qed.

Lemma verify_sliding_spec_witness :
  (Z.abs (110 - 100) = 10 /\ verify_sliding 110 100 10 = true)
  /\ (Z.abs (89 - 100) = 10 + 1 /\ verify_sliding 89 100 10 = false).
Proof.
  split.
  - split; [reflexivity|].
    apply (verify_sliding_spec 110 100 10). reflexivity.
  - split; [reflexivity|].
    apply (verify_sliding_spec 89 100 10). reflexivity.
Defined.

(** The piece ids that occur in a submission and in the truth. *)
Definition submitted_ids (l : list submitted_t) : gset Z :=
  list_to_set (s_id <$> l).

Definition correct_ids (l : list correct_t) : gset Z :=
  list_to_set (c_id <$> l).

Lemma correct_map_snoc l p :
  correct_map (l ++ [p]) = <[c_id p := (c_x p, c_y p)]> (correct_map l).
Proof. unfold correct_map. by rewrite foldl_app. Qed.

Lemma dom_correct_map l : dom (correct_map l) = correct_ids l.
Proof.
  induction l as [|p l IH] using rev_ind.
  - unfold correct_map, correct_ids. simpl. by rewrite dom_empty_L.
  - rewrite correct_map_snoc, dom_insert_L, IH. unfold correct_ids.
    rewrite fmap_app, list_to_set_app_L. simpl.
    rewrite union_empty_r_L. apply (comm_L (∪)).
Qed.

(** What the loop establishes for every submitted entry. *)
Lemma verify_drag_loop_true m tolerance l :
  verify_drag_loop m tolerance l = true
  <-> Forall (fun s => exists cx cy,
                m !! s_id s = Some (cx, cy)
                /\ Z.abs (s_x s - cx) <= tolerance
                /\ Z.abs (s_y s - cy) <= tolerance) l.
Proof.
  induction l as [|s l IH]; simpl.
  - split; [constructor|done].
  - rewrite Forall_cons, <- IH. destruct (m !! s_id s) as [[cx cy]|].
    + destruct (tolerance <? Z.abs (s_x s - cx)) eqn:Hx;
        destruct (tolerance <? Z.abs (s_y s - cy)) eqn:Hy; simpl;
        rewrite ?Z.ltb_lt, ?Z.ltb_ge in *.
      * split; [done|]. intros [(?&?&?&?&?) _]. simplify_eq. lia.
      * split; [done|]. intros [(?&?&?&?&?) _]. simplify_eq. lia.
      * split; [done|]. intros [(?&?&?&?&?) _]. simplify_eq. lia.
      * split; [|tauto]. intros ?. split; [|done]. by exists cx, cy.
    + split; [done|]. by intros [(?&?&?&?) _].
Qed.

Lemma verify_drag_true submitted correct tolerance :
  verify_drag submitted correct tolerance = true
  <-> length submitted = length correct
      /\ Forall (fun s => exists cx cy,
                   correct_map correct !! s_id s = Some (cx, cy)
                   /\ Z.abs (s_x s - cx) <= tolerance
                   /\ Z.abs (s_y s - cy) <= tolerance) submitted.
Proof.
  unfold verify_drag.
  destruct (Nat.eqb_spec (length submitted) (length correct)); simpl.
  - rewrite verify_drag_loop_true. tauto.
  - split; [done|tauto].
Qed.

(** An accepted submission only names pieces of the truth. *)
Lemma verify_drag_ids_subseteq submitted correct tolerance :
  verify_drag submitted correct tolerance = true ->
  submitted_ids submitted ⊆ correct_ids correct.
Proof.
  rewrite verify_drag_true. intros [_ Hall] i.
  unfold submitted_ids. rewrite elem_of_list_to_set, list_elem_of_fmap.
  intros (s & -> & Hs). rewrite Forall_forall in Hall.
  destruct (Hall s Hs) as (cx & cy & Hm & _).
  rewrite <- dom_correct_map. apply elem_of_dom. eauto.
Qed.

(** When no id is submitted twice, an accepted submission names every
    piece of the truth. *)
Lemma verify_drag_ids_complete submitted correct tolerance :
  NoDup (s_id <$> submitted) ->
  verify_drag submitted correct tolerance = true ->
  submitted_ids submitted = correct_ids correct.
Proof.
  intros Hnd Hv. pose proof (verify_drag_ids_subseteq _ _ _ Hv) as Hsub.
  apply verify_drag_true in Hv as [Hlen _].
  apply set_subseteq_size_eq; [done|].
  unfold submitted_ids at 1. rewrite size_list_to_set by done.
  rewrite length_fmap, Hlen, <- (length_fmap c_id).
  unfold correct_ids. clear. induction (c_id <$> correct) as [|i l IH].
  - done.
  - simpl. rewrite size_union_alt, size_singleton.
    assert (size (list_to_set l ∖ {[i]} : gset Z)
            <= size (list_to_set l : gset Z))%nat
      by (apply subseteq_size, subseteq_difference_l; done).
    lia.
Qed.

(** With pairwise different ids, the lookup table holds every truth
    entry. *)
Lemma correct_map_lookup correct c :
  NoDup (c_id <$> correct) -> c ∈ correct ->
  correct_map correct !! c_id c = Some (c_x c, c_y c).
Proof.
  induction correct as [|p correct IH] using rev_ind; intros Hnd Hc.
  - by apply elem_of_nil in Hc.
  - rewrite correct_map_snoc. rewrite fmap_app in Hnd.
    apply NoDup_app in Hnd as (Hnd & Hdisj & _).
    apply elem_of_app in Hc as [Hc|Hc].
    + rewrite lookup_insert_ne; [by apply IH|]. intros Heq.
      apply (Hdisj (c_id c)); [by apply list_elem_of_fmap_2|].
      rewrite <- Heq. apply list_elem_of_here.
    + apply list_elem_of_singleton in Hc as ->. apply lookup_insert_eq.
Qed.


(** C2.  A submission of the truth's length that repeats piece [0] and
    leaves piece [2] out is accepted, although its id set differs from
    the truth's. *)
Theorem verify_drag_repeated_id_accepted :
  let correct := [ Correct 0 20 20; Correct 1 120 120;
                   Correct 2 220 220 ] in
  let submitted := [ Submitted 0 20 20; Submitted 0 25 15;
                     Submitted 1 120 120 ] in
  length submitted = length correct
  /\ submitted_ids submitted <> correct_ids correct
  /\ verify_drag submitted correct 15 = true.
Proof.
  simpl. split; [done|split; [|by vm_compute]].
  intros Heq. assert (2 ∈ submitted_ids
    [ Submitted 0 20 20; Submitted 0 25 15; Submitted 1 120 120 ]) as Hin.
  { rewrite Heq. unfold correct_ids. set_solver. }
  unfold submitted_ids in Hin. set_solver.
Qed.

End PuzzleProofs.

(** ** The token store *)

Module TokenProofs.

Import CloudflareCaptcha.

(** The calls that change a store. *)
Inductive op :=
| Verify (token : string) (current_time : Z)
| Complete (challenge_id : string) (user_interaction : bool)
    (env : minting).

Definition step (self : self_t) (o : op) : self_t :=
  match o with
  | Verify token current_time => (verify_token self token current_time).2
  | Complete challenge_id user_interaction env =>
      (complete_challenge self challenge_id user_interaction env).2
  end.

Definition run (self : self_t) (ops : list op) : self_t :=
  foldl step self ops.

(** [o] stores an entry under [token]. *)
Definition mints (token : string) (o : op) : bool :=
  match o with
  | Complete _ true env => bool_decide (digest env = token)
  | _ => false
  end.

Definition no_remint (token : string) (ops : list op) : bool :=
  forallb (fun o => negb (mints token o)) ops.

(** [token] is absent, or stored with an expiry that [e] has reached. *)
Definition gone_by (e : Z) (token : string) (self : self_t) : Prop :=
  forall i, valid_tokens self !! token = Some i -> expires_at i <= e.

Lemma sweep_lookup_Some now tokens token i :
  sweep now tokens !! token = Some i
  <-> tokens !! token = Some i /\ now < expires_at i.
Proof.
  unfold sweep. rewrite map_lookup_filter_Some. simpl. intuition lia.
Qed.

Lemma sweep_lookup_None now tokens token :
  sweep now tokens !! token = None
  <-> forall i, tokens !! token = Some i -> expires_at i <= now.
Proof.
  rewrite eq_None_not_Some. unfold is_Some. split.
  - intros Hn i Hi. destruct (decide (expires_at i <= now)); [done|].
    exfalso. apply Hn. exists i. apply sweep_lookup_Some. split; [done|lia].
  - intros Hall [i Hi]. apply sweep_lookup_Some in Hi as [Hi ?].
    specialize (Hall i Hi). lia.
Qed.

Lemma verify_token_succeeds self token now :
  (verify_token self token now).1 = verification_successful
  <-> exists i, valid_tokens self !! token = Some i /\ now < expires_at i.
Proof.
  unfold verify_token.
  destruct (sweep now (valid_tokens self) !! token) as [i|] eqn:Hs; simpl.
  - apply sweep_lookup_Some in Hs. split; [eauto|done].
  - split; [done|]. intros (i & Hi & Hlt).
    rewrite sweep_lookup_None in Hs. specialize (Hs i Hi). lia.
Qed.

Lemma verify_token_fails self token now :
  (verify_token self token now).1 = invalid_or_expired
  <-> gone_by now token self.
Proof.
  unfold verify_token, gone_by.
  destruct (sweep now (valid_tokens self) !! token) as [i|] eqn:Hs; simpl.
  - apply sweep_lookup_Some in Hs as [Hi Hlt]. split; [done|].
    intros Hall. specialize (Hall i Hi). lia.
  - by rewrite sweep_lookup_None in Hs.
Qed.

(** Every verification answers one of the two messages. *)
Lemma verify_token_outcomes self token now :
  (verify_token self token now).1 = verification_successful
  \/ (verify_token self token now).1 = invalid_or_expired.
Proof.
  unfold verify_token. destruct (sweep _ _ !! _); simpl; auto.
Qed.

(** One-time use: whatever the answer, the verified token is not in the
    store afterwards. *)
Lemma verify_token_consumes self token now :
  valid_tokens (verify_token self token now).2 !! token = None.
Proof.
  unfold verify_token.
  destruct (sweep now (valid_tokens self) !! token) eqn:Hs; simpl.
  - apply lookup_delete_eq.
  - done.
Qed.

(** A verification never adds or alters an entry. *)
Lemma verify_token_lookup_Some self t now token i :
  valid_tokens (verify_token self t now).2 !! token = Some i ->
  valid_tokens self !! token = Some i.
Proof.
  unfold verify_token.
  destruct (sweep now (valid_tokens self) !! t) eqn:Hs; simpl.
  - intros Hi. apply lookup_delete_Some in Hi as [_ Hi].
    by apply sweep_lookup_Some in Hi as [Hi _].
  - intros Hi. by apply sweep_lookup_Some in Hi as [Hi _].
Qed.

Lemma step_gone_by e token self o :
  mints token o = false ->
  gone_by e token self -> gone_by e token (step self o).
Proof.
  intros Hm Hg i. destruct o as [t now|cid [|] env]; simpl.
  - intros Hi. apply Hg. by eapply verify_token_lookup_Some.
  - simpl in Hm. apply bool_decide_eq_false in Hm.
    rewrite lookup_insert_ne by done. apply Hg.
  - apply Hg.
Qed.

Lemma run_gone_by e token ops self :
  no_remint token ops = true ->
  gone_by e token self -> gone_by e token (run self ops).
Proof.
  revert self. induction ops as [|o ops IH]; intros self Hn Hg; [done|].
  simpl in Hn. apply andb_true_iff in Hn as [Ho Hn].
  apply negb_true_iff in Ho. simpl. apply IH; [done|].
  by apply step_gone_by.
Qed.

(** C4.  A freshly issued token verifies before its expiry.  Once a token
    has been verified it is rejected ever after, and from its expiry on
    it is rejected although it was never consumed; neither can be undone
    by later calls (short of the digest of a new token colliding with
    it). *)
Theorem token_lifecycle (self : self_t) (challenge_id : string)
    (env : minting) :
  let token := (generate_token self challenge_id env).1 in
  let issued := (generate_token self challenge_id env).2 in
  let expiry := expiry_reading env + token_expiry self in
  (forall now, now < expiry ->
     (verify_token issued token now).1 = verification_successful)
  /\ (forall now ops later,
        no_remint token ops = true ->
        (verify_token (run (verify_token issued token now).2 ops)
           token later).1 = invalid_or_expired)
  /\ (forall ops now,
        no_remint token ops = true -> expiry <= now ->
        (verify_token (run issued ops) token now).1 = invalid_or_expired).
Proof.
  simpl. split; [|split].
  - intros now Hnow. apply verify_token_succeeds. eexists. split.
    + simpl. apply lookup_insert_eq.
    + simpl. lia.
  - intros now ops later Hn. apply verify_token_fails.
    apply run_gone_by; [done|]. intros i Hi.
    by rewrite verify_token_consumes in Hi.
  - intros ops now Hn Hexp. apply verify_token_fails.
    apply run_gone_by; [done|]. intros i. simpl.
    rewrite lookup_insert_eq. intros [= <-]. simpl. lia.
Qed.

Definition sample_minting : minting :=
  {| digest := "9f2c"; created_reading := 1000; expiry_reading := 1000 |}.

Definition other_minting : minting :=
  {| digest := "77ab"; created_reading := 1100; expiry_reading := 1100 |}.

Lemma token_lifecycle_witness :
  (verify_token (generate_token init "c1" sample_minting).2 "9f2c" 1299).1
  = verification_successful
  /\ (verify_token
        (run (verify_token (generate_token init "c1" sample_minting).2
                "9f2c" 1299).2
           [Complete "c2" true other_minting; Verify "77ab" 1200])
        "9f2c" 1250).1 = invalid_or_expired
  /\ (verify_token
        (run (generate_token init "c1" sample_minting).2
           [Complete "c2" true other_minting])
        "9f2c" 1300).1 = invalid_or_expired.
Proof.
  pose proof (token_lifecycle init "c1" sample_minting) as (H1 & H2 & H3).
  split; [|split].
  - apply H1. reflexivity.
  - apply H2. reflexivity.
  - apply H3; [reflexivity|]. simpl. lia.
Defined.

(** C9.  Completing a challenge without user interaction is refused with
    the interaction-required error; the answer carries no token and the
    store is left as it was. *)
Theorem complete_challenge_requires_interaction (self : self_t)
    (challenge_id : string) (env : minting) :
  let (answer, self') := complete_challenge self challenge_id false env in
  answer = interaction_required
  /\ Json.get "success" answer = Some (Json.Bool false)
  /\ Json.get "error" answer = Some (Json.Str "Human interaction required")
  /\ Json.mentions "token" answer = false
  /\ self' = self.
Proof. simpl. repeat split. Qed.

(** With interaction a token is stored, so the refusal above is not the
    only behaviour of [complete_challenge]. *)
Lemma complete_challenge_issues self challenge_id env :
  let (answer, self') := complete_challenge self challenge_id true env in
  Json.get "token" answer = Some (Json.Str (digest env))
  /\ Json.get "expires_in" answer = Some (Json.Num (token_expiry self))
  /\ valid_tokens self' !! digest env
     = Some {| CloudflareCaptcha.challenge_id := challenge_id;
               created_at := created_reading env;
               expires_at := expiry_reading env + token_expiry self |}.
Proof. simpl. repeat split. apply lookup_insert_eq. Qed.

End TokenProofs.

(** ** Grid selection *)

Module GridProofs.

Import App.

(** The three answers of the handler, under the names of the
    specification. *)
Inductive VerificationOutcome :=
| Correct
| InsufficientSelection
| Incorrect.

Definition answer (required : Z) (o : VerificationOutcome) : Json.t :=
  match o with
  | Correct => reply true "Correct! All images selected correctly."
  | InsufficientSelection =>
      reply false ("Please select " +:+ pretty required +:+ " images.")
  | Incorrect => reply false "Wrong selection. Try again."
  end.

(** The answers are pairwise different, so each response of the handler
    stands for one outcome. *)
Lemma answer_eq_iff required o1 o2 :
  answer required o1 = answer required o2 <-> o1 = o2.
Proof.
  split; [|by intros ->].
  destruct o1, o2; simpl; intros Heq; try done; inversion Heq.
Qed.

(** [sorted] does not depend on the order of its argument, and nothing
    else is forgotten. *)
Lemma sorted_eq_Permutation (l1 l2 : list Z) :
  ImageCaptcha.sorted l1 = ImageCaptcha.sorted l2 <-> l1 ≡ₚ l2.
Proof.
  unfold ImageCaptcha.sorted. split.
  - intros Heq. rewrite <- (merge_sort_Permutation Z.le l1), Heq.
    apply merge_sort_Permutation.
  - intros Hp. apply (StronglySorted_unique Z.le).
    + apply StronglySorted_merge_sort; apply _.
    + apply StronglySorted_merge_sort; apply _.
    + by rewrite !merge_sort_Permutation.
Qed.

(** Which of the three answers the handler gives. *)
Definition outcome (selected correct : list Z) (required : Z)
  : VerificationOutcome :=
  if decide (ImageCaptcha.sorted selected = ImageCaptcha.sorted correct)
  then Correct
  else if Z.of_nat (length selected) <? required
  then InsufficientSelection
  else Incorrect.

Lemma verify_image_captcha_answer selected correct required :
  verify_image_captcha selected correct required
  = answer required (outcome selected correct required).
Proof.
  unfold verify_image_captcha, outcome.
  destruct (decide _); [done|]. by destruct (_ <? _).
Qed.

(** C5.  The handler answers [Correct] exactly when the sorted selection
    equals the sorted stored indices; failing that, it answers
    [InsufficientSelection] exactly when fewer than [required] indices
    were selected; and [Incorrect] otherwise. *)
Theorem verify_image_captcha_outcome (selected correct : list Z)
    (required : Z) :
  let same := ImageCaptcha.sorted selected = ImageCaptcha.sorted correct in
  let few := Z.of_nat (length selected) < required in
  (verify_image_captcha selected correct required = answer required Correct
   <-> same)
  /\ (verify_image_captcha selected correct required
      = answer required InsufficientSelection
      <-> ~ same /\ few)
  /\ (verify_image_captcha selected correct required
      = answer required Incorrect
      <-> ~ same /\ ~ few).
Proof.
  cbv zeta. rewrite verify_image_captcha_answer.
  rewrite !answer_eq_iff. unfold outcome.
  destruct (decide (ImageCaptcha.sorted selected
                    = ImageCaptcha.sorted correct)) as [Hs|Hs];
    [|destruct (Z.ltb_spec (Z.of_nat (length selected)) required)];
    repeat split; intros; try done; try tauto; lia.
Qed.

Lemma verify_image_captcha_outcome_witness :
  verify_image_captcha [7; 2; 4] [2; 4; 7] 3 = answer 3 Correct
  /\ verify_image_captcha [7; 2] [2; 4; 7] 3
     = answer 3 InsufficientSelection
  /\ verify_image_captcha [7; 2; 5] [2; 4; 7] 3 = answer 3 Incorrect.
Proof.
  split; [|split].
  - apply (verify_image_captcha_outcome [7; 2; 4] [2; 4; 7] 3).
    by vm_compute.
  - apply (verify_image_captcha_outcome [7; 2] [2; 4; 7] 3).
    split; [by vm_compute|simpl; lia].
  - apply (verify_image_captcha_outcome [7; 2; 5] [2; 4; 7] 3).
    split; [by vm_compute|simpl; lia].
Defined.

(** Submitting the stored indices in any order is [Correct]. *)
Corollary verify_image_captcha_any_order selected correct required :
  selected ≡ₚ correct ->
  verify_image_captcha selected correct required = answer required Correct.
Proof.
  intros Hp. unfold verify_image_captcha.
  rewrite decide_True; [done|]. by apply sorted_eq_Permutation.
Qed.

End GridProofs.

(** ** The image cache *)

Module CacheProofs.

Import ImageCache.

(** *** File names *)








(** *** Listings after each file operation *)

Lemma listing_with_categories d c st :
  listing d (with_categories c st) = listing d st.
Proof. done. Qed.

Lemma listing_mkdir d d' st : listing d (mkdir d' st) = listing d st.
Proof.
  unfold mkdir. destruct (disk st !! d') eqn:Hd'; [done|].
  unfold listing. simpl. destruct (decide (d = d')) as [->|Hne].
  - by rewrite lookup_insert_eq, Hd'.
  - by rewrite lookup_insert_ne.
Qed.

Lemma listing_unlink d n st :
  listing d (unlink d n st) = filter (fun f => name f ≠ n) (listing d st).
Proof. unfold unlink, listing at 1. simpl. by rewrite lookup_insert_eq. Qed.


(** The listing that [write] leaves. *)
Definition written (f : file) (files : list file) : list file :=
  if decide (name f ∈ name <$> files)
  then (fun g => if decide (name g = name f) then f else g) <$> files
  else files ++ [f].

Lemma listing_write d f st :
  listing d (write d f st) = written f (listing d st).
Proof. unfold write, listing at 1. simpl. by rewrite lookup_insert_eq. Qed.

Lemma filter_all {A} (P : A -> Prop) `{forall x, Decision (P x)} l :
  Forall P l -> filter P l = l.
Proof.
  induction 1 as [|x l Hx _ IH]; [done|].
  by rewrite filter_cons, decide_True, IH.
Qed.


(** Unlinking the files of [gone] one after the other. *)
Lemma listing_unlink_all d gone st :
  listing d (foldl (fun st' f => unlink d (name f) st') st gone)
  = filter (fun g => name g ∉ name <$> gone) (listing d st).
Proof.
  revert st. induction gone as [|f gone IH]; intros st; simpl.
  - symmetry. apply filter_all, Forall_forall. intros g _.
    apply not_elem_of_nil.
  - rewrite IH, listing_unlink, list_filter_filter.
    apply list_filter_iff. intros g. rewrite not_elem_of_cons. tauto.
Qed.

(** The files [_cleanup_category] unlinks, oldest first. *)
Definition evicted (max : Z) (files : list file) : list file :=
  let image_files := glob_images files in
  if max <? Z.of_nat (length image_files)
  then take (Z.to_nat (Z.of_nat (length image_files) - max))
         (sort_by_mtime image_files)
  else [].

(** The listing it leaves. *)
Definition cleaned (max : Z) (files : list file) : list file :=
  filter (fun g => name g ∉ name <$> evicted max files) files.

Lemma sort_by_mtime_length l : length (sort_by_mtime l) = length l.
Proof.
  induction l as [|f l IH]; [done|]. simpl. rewrite <- IH.
  generalize (sort_by_mtime l). intros s.
  induction s as [|g s IHs]; [done|]. simpl.
  destruct (mtime f <=? mtime g); simpl; [done|]. by rewrite IHs.
Qed.

Lemma listing_cleanup cfg category st :
  listing (sanitize category) (_cleanup_category cfg category st)
  = cleaned (max_images_per_category cfg) (listing (sanitize category) st).
Proof.
  unfold _cleanup_category, cleaned, evicted, _get_category_dir.
  rewrite listing_mkdir.
  destruct (_ <? _).
  - by rewrite listing_unlink_all, listing_mkdir, sort_by_mtime_length.
  - rewrite listing_mkdir. symmetry. apply filter_all, Forall_forall.
    intros g _. apply not_elem_of_nil.
Qed.

(** The file that a [save_image] call writes. *)
Definition saved_file (img : image) (image_id : option string)
    (env : saving) : file :=
  {| name := default (generated_id env) image_id +:+ ".jpg";
     mtime := stamp env;
     data := Some (if decide (mode img = "RGB") then img
                   else convert "RGB" img) |}.

Lemma listing_save_image cfg img category image_id env st :
  listing (sanitize category)
    (save_image cfg img category image_id env st).2
  = if writable env
    then cleaned (max_images_per_category cfg)
           (written (saved_file img image_id env)
              (listing (sanitize category) st))
    else listing (sanitize category) st.
Proof.
  unfold save_image, _get_category_dir, get_cache_count, _get_category_dir.
  destruct (writable env); simpl; [|apply listing_mkdir].
  rewrite listing_cleanup, listing_with_categories, listing_mkdir.
  f_equal.
  destruct (categories _ !! category);
    rewrite ?listing_with_categories, listing_write, listing_mkdir; done.
Qed.

(** *** Sorting by modification time *)







(** *** What the two globs list *)





(** *** Eviction *)







(** *** One [save_image] call *)


Lemma written_names f files :
  name <$> written f files
  = if decide (name f ∈ name <$> files) then name <$> files
    else (name <$> files) ++ [name f].
Proof.
  unfold written. destruct (decide _); [|by rewrite fmap_app].
  rewrite <- list_fmap_compose. apply list_fmap_ext.
  intros i g _. simpl. by destruct (decide _).
Qed.

Lemma written_NoDup f files :
  NoDup (name <$> files) -> NoDup (name <$> written f files).
Proof.
  intros Hnd. rewrite written_names. destruct (decide _); [done|].
  apply NoDup_app. split; [done|]. split; [|apply NoDup_singleton].
  intros x Hx ->%list_elem_of_singleton. done.
Qed.

Lemma cleaned_NoDup max files :
  NoDup (name <$> files) -> NoDup (name <$> cleaned max files).
Proof.
  intros Hnd. eapply sublist_NoDup; [exact Hnd|].
  apply fmap_sublist, sublist_filter.
Qed.


(** File names stay distinct. *)
Lemma save_image_NoDup cfg img category image_id env st :
  NoDup (name <$> listing (sanitize category) st) ->
  NoDup (name <$> listing (sanitize category)
                    (save_image cfg img category image_id env st).2).
Proof.
  intros Hnd. rewrite listing_save_image. destruct (writable env); [|done].
  by apply cleaned_NoDup, written_NoDup.
Qed.


(** *** A run of [save_image] calls on one category *)

Record put := Put {
  put_image : image;
  put_id : option string;
  put_env : saving
}.



(** The identifier a call saves under. *)
Definition id_of (p : put) : string :=
  default (generated_id (put_env p)) (put_id p).












(** *** Three files and a limit of two *)


Definition picture (s : string) : image :=
  {| pixels := s; mode := "RGB"; size := (120, 120) |}.








(** *** Categories that sanitize to the same name *)


Lemma listing_disk d st st' : disk st = disk st' -> listing d st = listing d st'.
Proof. unfold listing. by intros ->. Qed.


Lemma disk_write d f st st' :
  disk st = disk st' -> disk (write d f st) = disk (write d f st').
Proof.
  intros Heq. unfold write. simpl. by rewrite Heq, (listing_disk d _ _ Heq).
Qed.







End CacheProofs.

(** ** The image provider *)

Module UnsplashProofs.

Import ImageCache UnsplashClient.

(** Reading the cache sends nothing. *)
Lemma sent_cached_images category count size w :
  sent (cached_images category count size w).2 = sent w.
Proof.
  unfold cached_images. by destruct (get_cached_images _ _ _ _ _) as [[? ?] ?].
Qed.

Lemma sent_enough_cached category min_count w :
  sent (enough_cached category min_count w).2 = sent w.
Proof. unfold enough_cached. by destruct (has_enough_cached _ _ _). Qed.

(** C8.  In cache-only mode neither [get_random_image] nor
    [get_images_by_query] sends a request to the remote source, whatever
    [use_cache] is. *)
Theorem cache_only_sends_nothing (cfg : config) (net : remote)
    (self : self_t) (w : world) :
  cache_only_mode self = true ->
  (forall query size,
      sent (get_random_image cfg net self query size w).2 = sent w)
  /\ (forall query count size,
         sent (get_images_by_query cfg net self query count size w).2
         = sent w).
Proof.
  intros Honly. split.
  - intros query size. unfold get_random_image, bind, ret. rewrite Honly.
    destruct (use_cache self); [|done].
    pose proof (sent_cached_images (category_of query) 1 size w) as Hs.
    destruct (cached_images _ _ _ w) as [[|img imgs] w']; done.
  - intros query count size. unfold get_images_by_query, bind, ret.
    rewrite Honly. destruct (use_cache self).
    + pose proof (sent_enough_cached query count w) as He.
      destruct (enough_cached query count w) as [[|] w1]; simpl in *.
      * pose proof (sent_cached_images query count size w1) as Hs.
        destruct (cached_images query count size w1) as [imgs w2].
        simpl in *. destruct (count <=? length imgs)%nat; simpl.
        -- congruence.
        -- rewrite sent_cached_images. congruence.
      * rewrite sent_cached_images. congruence.
    + apply sent_cached_images.
Qed.

(** *** Sample worlds *)

Definition photo (s : string) : image :=
  {| pixels := s; mode := "RGB"; size := (640, 480) |}.

(** A cache whose category [random] holds one readable file. *)
Definition stocked : state :=
  {| categories := ∅; last_cleanup := None;
     disk := {[ "random" := [ {| name := "a.jpg"; mtime := 1;
                                 data := Some (photo "a") |} ] ]} |}.

Definition world_of (st : state) : world :=
  {| cache := st; gen := []; savings := []; sent := [] |}.

(** A remote source that answers every API request with one photo. *)
Definition online : remote :=
  {| api := fun _ =>
       Response 200
         (Json.Obj [ ("id", Json.Str "p1");
                     ("urls", Json.Obj [ ("small", Json.Str "http://p1") ]) ]);
     picture := fun _ => Some (photo "p1") |}.

Definition client (use_cache0 cache_only : bool) : self_t :=
  {| api_key := Some "key"; use_cache := use_cache0;
     cache_only_mode := cache_only |}.

Lemma cache_only_sends_nothing_witness :
  sent (get_random_image (default_config "image_cache") online
          (client false true) None (300, 300) (world_of stocked)).2 = []
  /\ sent (get_images_by_query (default_config "image_cache") online
             (client false true) "random" 1 (120, 120)
             (world_of stocked)).2 = [].
Proof.
  destruct (cache_only_sends_nothing (default_config "image_cache") online
              (client false true) (world_of stocked) eq_refl) as [H1 H2].
  split; [apply (H1 None (300, 300))|apply (H2 "random" 1%nat (120, 120))].
Defined.

(** Outside cache-only mode the same calls do reach the remote source: on
    a miss, one API request and one download. *)
Lemma remote_reached_otherwise :
  (get_random_image (default_config "image_cache") online
     (client true false) (Some "car") (300, 300) (world_of stocked)).1
  = Some {| pixels := "p1"; mode := "RGB"; size := (300, 300) |}
  /\ sent (get_random_image (default_config "image_cache") online
             (client true false) (Some "car") (300, 300)
             (world_of stocked)).2
     = [GetRandom (Some "car"); GetUrl "http://p1"]
  /\ sent (get_images_by_query (default_config "image_cache") online
             (client true false) "car" 1 (120, 120) (world_of stocked)).2
     = [GetSearch "car" 10].
Proof. split; [|split]; vm_compute; reflexivity. Qed.

(** C7 as the specification words it fails: with [use_cache] off the
    cache is not looked at, and in cache-only mode the answer is [None]
    although the cache holds an image for the category. *)
Lemma cache_hit_needs_use_cache_counterexample :
  let w := world_of stocked in
  let self := client false true in
  (cached_images (category_of None) 1 (300, 300) w).1
  = [ {| pixels := "a"; mode := "RGB"; size := (300, 300) |} ]
  /\ cache_only_mode self = true
  /\ (get_random_image (default_config "image_cache") online self None
        (300, 300) w).1 = None.
Proof. split; [|split]; vm_compute; reflexivity. Qed.

(** C7, amended.  With [use_cache] on, [get_random_image] looks in the
    cache first and a hit is what it returns, the world being as the cache
    read left it.  In cache-only mode it returns the cache result when
    [use_cache] is on and [None] when it is off, and no request is sent. *)
Theorem get_random_image_prefers_cache (cfg : config) (net : remote)
    (self : self_t) (query : option string) (size : Z * Z) (w : world) :
  let lookup := cached_images (category_of query) 1 size w in
  (use_cache self = true -> lookup.1 <> [] ->
   get_random_image cfg net self query size w = (head lookup.1, lookup.2))
  /\ (cache_only_mode self = true ->
      (get_random_image cfg net self query size w).1
      = (if use_cache self then head lookup.1 else None)
      /\ sent (get_random_image cfg net self query size w).2 = sent w).
Proof.
  cbv zeta. unfold get_random_image, bind, ret. split.
  - intros -> Hhit.
    destruct (cached_images _ _ _ w) as [[|img imgs] w']; simpl in *; done.
  - intros ->. destruct (use_cache self); [|done].
    pose proof (sent_cached_images (category_of query) 1 size w) as Hs.
    destruct (cached_images _ _ _ w) as [[|img imgs] w']; done.
Qed.

Lemma get_random_image_prefers_cache_witness :
  (get_random_image (default_config "image_cache") online
     (client true false) None (300, 300) (world_of stocked)).1
  = Some {| pixels := "a"; mode := "RGB"; size := (300, 300) |}
  /\ (get_random_image (default_config "image_cache") online
        (client true true) (Some "car") (300, 300) (world_of stocked)).1
     = None.
Proof.
  split.
  - destruct (get_random_image_prefers_cache (default_config "image_cache")
                online (client true false) None (300, 300)
                (world_of stocked)) as [Hhit _].
    rewrite Hhit; [reflexivity|reflexivity|].
    vm_compute. intros H. inversion H.
  - destruct (get_random_image_prefers_cache (default_config "image_cache")
                online (client true true) (Some "car") (300, 300)
                (world_of stocked)) as [_ Honly].
    destruct (Honly eq_refl) as [Hres _]. rewrite Hres.
    vm_compute. reflexivity.
Defined.


End UnsplashProofs.

(** ** What the challenge handlers send out *)

Module ChallengeProofs.

Import App.

(** [random.sample] only returns members of the population. *)
Lemma pick_elem_of {A} i (l : list A) x rest :
  Random.pick i l = Some (x, rest) -> x ∈ l /\ rest ⊆ l.
Proof.
  revert i x rest. induction l as [|y l IH]; intros [|i] x rest; simpl;
    try done.
  - intros [= -> ->]. split; [left|]. intros z Hz. by right.
  - destruct (Random.pick i l) as [[x' rest']|] eqn:Hp; [|done].
    intros [= -> <-]. destruct (IH _ _ _ Hp) as [Hx Hr].
    split; [by right|]. intros z [->|Hz]%elem_of_cons; [left|right; auto].
Qed.

Lemma sample_Forall {A} (P : A -> Prop) population k g :
  Forall P population -> Forall P (Random.sample population k g).1.
Proof.
  revert population g. induction k as [|k IH]; intros population g Hall;
    simpl; [constructor|].
  destruct (Random.next g) as [r g1].
  destruct (Random.pick _ population) as [[x rest]|] eqn:Hp; [|constructor].
  apply pick_elem_of in Hp as [Hx Hrest].
  specialize (IH rest g1). destruct (Random.sample rest k g1) as [xs g2].
  simpl in *. rewrite Forall_forall in Hall. constructor; [by apply Hall|].
  apply IH, Forall_forall. intros z Hz. apply Hall, Hrest, Hz.
Qed.

(** *** The sliding puzzle *)

(** The sliding response names neither the answer nor the tolerance; both
    are kept in the session. *)
Lemma sliding_response_omits_answer (R : PuzzleCaptcha.renderer)
    (g : Random.rng) (session : gmap string Json.t) :
  exists response session' g',
    generate_sliding_puzzle R g session = Some (response, session', g')
    /\ Json.mentions "correct_x" response = false
    /\ Json.mentions "tolerance" response = false
    /\ session' !! "sliding_puzzle_answer"
       = Json.get "correct_x"
           (PuzzleCaptcha.generate_sliding_puzzle PuzzleCaptcha.init R g).1.
Proof.
  unfold generate_sliding_puzzle, PuzzleCaptcha.generate_sliding_puzzle.
  destruct (Random.randint 50 _ g) as [piece_y g1].
  destruct (Random.randint 100 _ g1) as [correct_x g2]. simpl.
  eexists _, _, _. split; [reflexivity|]. split; [reflexivity|].
  split; [reflexivity|]. rewrite lookup_insert_ne by done.
  apply lookup_insert_eq.
Qed.

(** *** The drag puzzle *)

Definition is_piece (R : PuzzleCaptcha.renderer) (j : Json.t) : Prop :=
  exists p, j = PuzzleCaptcha.piece_entry R p.

Lemma project_each_pieces (R : PuzzleCaptcha.renderer) pieces :
  Forall (is_piece R) pieces ->
  exists answers shown,
    project_each ["id"; "correct_x"; "correct_y"] (Json.Arr pieces)
    = Some answers
    /\ project_each ["id"; "image"] (Json.Arr pieces) = Some shown
    /\ Forall (fun j => Json.keys j = ["id"; "image"]) shown.
Proof.
  unfold project_each. simpl. induction 1 as [|j pieces [[[id x] y] ->] _ IH].
  - by exists [], [].
  - destruct IH as (answers & shown & Ha & Hs & Hk). simpl in *.
    rewrite Ha, Hs. simpl. eexists _, _. split; [reflexivity|].
    split; [reflexivity|]. by constructor.
Qed.

Lemma keys_only (ks : list string) (l : list Json.t) :
  Forall (fun j => Json.keys j = ks) l ->
  forall k, k ∈ flat_map Json.keys l -> k ∈ ks.
Proof.
  induction 1 as [|j l Hj _ IH]; simpl; intros k Hk.
  - by apply elem_of_nil in Hk.
  - apply elem_of_app in Hk as [Hk|Hk]; [by rewrite Hj in Hk|by apply IH].
Qed.

(** The pieces of the drag response carry their id and image only, but the
    response passes the generator's [positions] list on as it is. *)
Lemma drag_response_fields (R : PuzzleCaptcha.renderer) (g : Random.rng)
    (session : gmap string Json.t) :
  exists response session' g' pieces,
    generate_drag_puzzle R g session = Some (response, session', g')
    /\ Json.get "pieces" response = Some (Json.Arr pieces)
    /\ Forall (fun j => Json.keys j = ["id"; "image"]) pieces
    /\ Json.get "positions" response
       = Json.get "positions"
           (PuzzleCaptcha.generate_drag_puzzle PuzzleCaptcha.init R g).1.
Proof.
  unfold generate_drag_puzzle, PuzzleCaptcha.generate_drag_puzzle.
  destruct (Random.sample (PuzzleCaptcha.available_cells 3) 3 g)
    as [selected g1].
  set (placed := imap _ selected).
  assert (Forall (is_piece R)
            (Random.shuffle (PuzzleCaptcha.piece_entry R <$> placed) g1).1)
    as Hpieces.
  { apply sample_Forall, Forall_fmap, Forall_forall. intros p _. by exists p. }
  destruct (Random.shuffle _ g1) as [pieces g2]. simpl in Hpieces.
  destruct (project_each_pieces R pieces Hpieces)
    as (answers & shown & Ha & Hs & Hk).
  set (result := Json.Obj _).
  assert (Json.get "pieces" result = Some (Json.Arr pieces)) as Hp
    by reflexivity.
  assert (Json.get "tolerance" result = Some (Json.Num 15)) as Ht
    by reflexivity.
  assert (Json.get "background" result
          = Some (Json.Str (PuzzleCaptcha.drag_background R placed))) as Hb
    by reflexivity.
  assert (Json.get "positions" result
          = Some (Json.Arr (PuzzleCaptcha.position_entry <$> placed))) as Hq
    by reflexivity.
  assert (project ["puzzle_width"; "puzzle_height"; "piece_size"] result
          = Some [ ("puzzle_width", Json.Num 300);
                   ("puzzle_height", Json.Num 300);
                   ("piece_size", Json.Num 60) ]) as Hr by reflexivity.
  rewrite Hp, Ht, Hb, Hq, Hr. simpl. rewrite Ha. simpl. rewrite Hs. simpl.
  eexists _, _, _, shown. split; [reflexivity|]. by repeat split.
Qed.

(** *** The image grid *)

Definition is_cell (j : Json.t) : Prop :=
  exists img cat b i,
    j = Json.Obj [ ("image", Json.Str img); ("category", Json.Str cat);
                   ("is_correct", Json.Bool b); ("index", Json.Num i) ].

Lemma fill_grid_cells picture target correct wrong idx indices images :
  ImageCaptcha.fill_grid picture target correct wrong idx indices
  = Some images ->
  Forall is_cell images.
Proof.
  revert idx images. induction indices as [|i indices IH];
    intros idx images; simpl.
  - intros [= <-]. constructor.
  - destruct (decide (i ∈ correct)); simpl.
    + destruct (ImageCaptcha.fill_grid _ _ _ _ idx indices) eqn:Hrest;
        [|done].
      intros [= <-]. constructor; [by eexists _, _, _, _|by eapply IH].
    + destruct (wrong !! idx) as [c|]; simpl; [|done].
      destruct (ImageCaptcha.fill_grid _ _ _ _ (S idx) indices) eqn:Hrest;
        [|done].
      intros [= <-]. constructor; [by eexists _, _, _, _|by eapply IH].
Qed.

Lemma project_each_cells images :
  Forall is_cell images ->
  exists shown,
    project_each ["image"; "index"] (Json.Arr images) = Some shown
    /\ Forall (fun j => Json.keys j = ["image"; "index"]) shown.
Proof.
  unfold project_each. simpl.
  induction 1 as [|j images (img & cat & b & i & ->) _ IH].
  - by exists [].
  - destruct IH as (shown & Hs & Hk). simpl in *. rewrite Hs. simpl.
    eexists. split; [reflexivity|]. by constructor.
Qed.

(** The grid response names no category, no correctness flag and no list
    of correct indices: its keys are those needed to draw the grid. *)
Lemma grid_response_keys picture g session response session' g' :
  generate_image_captcha picture g session = Some (response, session', g') ->
  (forall k, k ∈ Json.keys response ->
             k ∈ ["prompt"; "images"; "image"; "index";
                  "required_selections"])
  /\ Json.mentions "category" response = false
  /\ Json.mentions "is_correct" response = false
  /\ Json.mentions "correct_indices" response = false.
Proof.
  intros Hgen.
  assert (forall k, k ∈ Json.keys response ->
                    k ∈ ["prompt"; "images"; "image"; "index";
                         "required_selections"]) as Hkeys.
  { revert Hgen. unfold generate_image_captcha, ImageCaptcha.generate.
    destruct (Random.choice ImageCaptcha.categories g) as [[target|] g1];
      [|done].
    destruct (if (6 <=? _)%nat then _ else _) as [[wrong g2]|]; [|done].
    destruct (Random.sample (ImageCaptcha.range 9) 3 g2) as [correct g3].
    destruct (ImageCaptcha.fill_grid _ _ _ _ _ _) as [images|] eqn:Hfill;
      [|done].
    apply fill_grid_cells, project_each_cells in Hfill
      as (shown & Hshown & Hk).
    simpl. simpl in Hshown. rewrite Hshown. simpl. intros [= <- _ _].
    simpl. intros k. rewrite !elem_of_cons, elem_of_app, elem_of_cons.
    intros [->|[->|[Hin|[->|Hin]]]]; try tauto.
    apply (keys_only _ _ Hk) in Hin. rewrite !elem_of_cons in Hin. tauto. }
  split; [exact Hkeys|].
  unfold Json.mentions. repeat split; apply bool_decide_eq_false;
    intros Hin%Hkeys; revert Hin; apply (bool_decide_unpack _);
    vm_compute; reflexivity.
Qed.

(** The handler does answer: a draw and its response. *)
Lemma grid_response_example :
  (out ← generate_image_captcha (fun _ _ => "png")
           [3; 1; 1; 1; 1; 1; 1; 2; 2; 2]%nat ∅;
   Json.get "prompt" out.1.1)
  = Some (Json.Str "Select all images containing a sun").
Proof. vm_compute. reflexivity. Qed.


(** *** The drag puzzle, for every draw *)

Lemma pick_fmap {A B} (f : A -> B) i (l : list A) :
  Random.pick i (f <$> l)
  = (fun xr : A * list A => (f xr.1, f <$> xr.2)) <$> Random.pick i l.
Proof.
  revert i. induction l as [|x l IH]; intros [|i]; simpl; try done.
  rewrite IH. by destruct (Random.pick i l) as [[? ?]|].
Qed.

Lemma sample_fmap {A B} (f : A -> B) (l : list A) k g :
  Random.sample (f <$> l) k g
  = (f <$> (Random.sample l k g).1, (Random.sample l k g).2).
Proof.
  revert l g. induction k as [|k IH]; intros l g; simpl; [done|].
  destruct (Random.next g) as [r g1]. rewrite length_fmap, pick_fmap.
  destruct (Random.pick _ l) as [[x rest]|]; simpl; [|done].
  rewrite IH. by destruct (Random.sample rest k g1).
Qed.

Lemma pick_Permutation {A} i (l : list A) x rest :
  Random.pick i l = Some (x, rest) -> l ≡ₚ x :: rest.
Proof.
  revert i x rest. induction l as [|y l IH]; intros [|i] x rest; simpl;
    try done.
  - by intros [= -> ->].
  - destruct (Random.pick i l) as [[x' rest']|] eqn:Hp; [|done].
    intros [= -> <-]. rewrite (IH _ _ _ Hp). apply Permutation_swap.
Qed.

Lemma pick_is_Some {A} i (l : list A) :
  (i < length l)%nat -> is_Some (Random.pick i l).
Proof.
  revert i. induction l as [|y l IH]; intros [|i] Hi; simpl in *;
    try lia; [by eexists|].
  destruct (IH i) as [[x rest] ->]; [lia|]. by eexists.
Qed.

(** A shuffle rearranges; nothing is lost or repeated. *)
Lemma shuffle_Permutation {A} (l : list A) g : (Random.shuffle l g).1 ≡ₚ l.
Proof.
  unfold Random.shuffle. remember (length l) as n eqn:Hn.
  revert l g Hn. induction n as [|n IH]; intros l g Hn; simpl.
  - by destruct l.
  - destruct (Random.next g) as [r g1].
    destruct (pick_is_Some (r mod length l) l) as [[x rest] Hp].
    { apply Nat.mod_upper_bound. lia. }
    rewrite Hp. pose proof (pick_Permutation _ _ _ _ Hp) as Hperm.
    assert (n = length rest) as Hrest.
    { apply Permutation_length in Hperm. simpl in Hperm. lia. }
    specialize (IH rest g1 Hrest).
    destruct (Random.sample rest n g1) as [xs g2]. simpl in *.
    by rewrite IH, Hperm.
Qed.

Lemma mapM_fmap_to {A B C} (f : A -> option B) (g : C -> A) (h : C -> B) l :
  (forall x, f (g x) = Some (h x)) -> mapM f (g <$> l) = Some (h <$> l).
Proof.
  intros Hf. apply mapM_Some_2.
  induction l as [|x l IH]; constructor; [apply Hf|exact IH].
Qed.

Definition answer_entry (p : Z * Z * Z) : Json.t :=
  let '(id, x, y) := p in
  Json.Obj [ ("id", Json.Num id); ("correct_x", Json.Num x);
             ("correct_y", Json.Num y) ].

Definition to_submitted (p : Z * Z * Z) : PuzzleCaptcha.submitted_t :=
  let '(id, x, y) := p in PuzzleCaptcha.Submitted id x y.

Definition to_correct (p : Z * Z * Z) : PuzzleCaptcha.correct_t :=
  let '(id, x, y) := p in PuzzleCaptcha.Correct id x y.

(** The pieces are numbered in placement order. *)
Lemma placed_ids self cell_size (selected : list (Z * Z)) :
  (fun p => p.1.1) <$> imap (PuzzleCaptcha.place self cell_size) selected
  = Z.of_nat <$> seq 0 (length selected).
Proof.
  rewrite fmap_imap, <- imap_seq_0. apply imap_ext.
  by intros i [gx gy] _.
Qed.

(** The truth list verifies against any rearrangement of itself. *)
Lemma verify_drag_truth (placed shuffled : list (Z * Z * Z)) tolerance :
  0 <= tolerance ->
  NoDup ((fun p => p.1.1) <$> placed) -> shuffled ≡ₚ placed ->
  PuzzleCaptcha.verify_drag (to_submitted <$> placed)
    (to_correct <$> shuffled) tolerance = true.
Proof.
  intros Htol Hnd Hperm. apply PuzzleProofs.verify_drag_true. split.
  - rewrite !length_fmap. symmetry. by apply Permutation_length.
  - apply Forall_fmap, Forall_forall. intros [[id x] y] Hp. simpl.
    exists x, y. split; [|lia].
    apply (PuzzleProofs.correct_map_lookup _ (PuzzleCaptcha.Correct id x y)).
    + rewrite <- list_fmap_compose.
      rewrite (list_fmap_ext (PuzzleCaptcha.c_id ∘ to_correct)
                 (fun p => p.1.1) shuffled) by (by intros i [[? ?] ?] _).
      by rewrite Hperm.
    + apply (list_elem_of_fmap_2 to_correct _ (id, x, y)). by rewrite Hperm.
Qed.

(** Whatever the draw, the response carries the truth under [positions],
    and a client that sends this list back is accepted. *)
Lemma drag_echo_accepted (R : PuzzleCaptcha.renderer) (g : Random.rng)
    (session : gmap string Json.t) :
  exists response session' g' positions,
    generate_drag_puzzle R g session = Some (response, session', g')
    /\ Json.get "positions" response = Some positions
    /\ verify_drag_puzzle (Json.Obj [ ("positions", positions) ]) session'
       = Some (reply true "All pieces placed correctly!").
Proof.
  unfold generate_drag_puzzle, PuzzleCaptcha.generate_drag_puzzle.
  destruct (Random.sample (PuzzleCaptcha.available_cells 3) 3 g)
    as [selected g1].
  pose proof (placed_ids PuzzleCaptcha.init
                (PuzzleCaptcha.puzzle_size PuzzleCaptcha.init / Z.of_nat 3)
                selected) as Hids.
  set (placed := imap _ selected) in *.
  pose proof (shuffle_Permutation placed g1) as Hperm.
  unfold Random.shuffle in *. rewrite length_fmap, sample_fmap.
  destruct (Random.sample placed (length placed) g1) as [shuffled g2].
  simpl in Hperm. cbn [fst snd].
  set (result := Json.Obj _).
  assert (Json.get "pieces" result
          = Some (Json.Arr (PuzzleCaptcha.piece_entry R <$> shuffled))) as Hp
    by reflexivity.
  assert (Json.get "tolerance" result = Some (Json.Num 15)) as Ht
    by reflexivity.
  assert (Json.get "background" result
          = Some (Json.Str (PuzzleCaptcha.drag_background R placed))) as Hb
    by reflexivity.
  assert (Json.get "positions" result
          = Some (Json.Arr (PuzzleCaptcha.position_entry <$> placed))) as Hq
    by reflexivity.
  assert (project ["puzzle_width"; "puzzle_height"; "piece_size"] result
          = Some [ ("puzzle_width", Json.Num 300);
                   ("puzzle_height", Json.Num 300);
                   ("piece_size", Json.Num 60) ]) as Hr by reflexivity.
  assert (project_each ["id"; "correct_x"; "correct_y"]
            (Json.Arr (PuzzleCaptcha.piece_entry R <$> shuffled))
          = Some (answer_entry <$> shuffled)) as Ha.
  { apply mapM_fmap_to. by intros [[? ?] ?]. }
  assert (is_Some (project_each ["id"; "image"]
                     (Json.Arr (PuzzleCaptcha.piece_entry R <$> shuffled))))
    as [shown Hs].
  { eexists. apply (mapM_fmap_to _ _
      (fun p => Json.Obj [ ("id", Json.Num p.1.1);
                           ("image",
                            Json.Str (PuzzleCaptcha.drag_piece R p.1.2 p.2)) ])).
    by intros [[? ?] ?]. }
  rewrite Hp, Ht, Hb, Hq, Hr. simpl. rewrite Ha. simpl. rewrite Hs. simpl.
  eexists _, _, _, _. split; [reflexivity|]. split; [reflexivity|].
  unfold verify_drag_puzzle. simpl.
  rewrite (mapM_fmap_to submitted_of _ to_submitted)
    by (by intros [[? ?] ?]).
  csimpl. rewrite lookup_insert_eq.
  rewrite lookup_insert_ne by done. rewrite lookup_insert_eq. csimpl.
  rewrite (mapM_fmap_to correct_of _ to_correct) by (by intros [[? ?] ?]).
  csimpl.
  rewrite verify_drag_truth; [done|lia| |done].
  rewrite Hids. apply NoDup_fmap_2; [apply _|apply NoDup_seq].
Qed.


(** A draw of the generator: cells [(0,0)], [(1,2)] and [(0,2)], pieces
    shown in the order 1, 2, 0. *)
Definition a_draw : Random.rng := [0; 4; 8; 1; 1; 0]%nat.

Definition revealed : Json.t :=
  Json.Arr
    [ Json.Obj [ ("id", Json.Num 0); ("x", Json.Num 20); ("y", Json.Num 20) ];
      Json.Obj [ ("id", Json.Num 1); ("x", Json.Num 120);
                 ("y", Json.Num 220) ];
      Json.Obj [ ("id", Json.Num 2); ("x", Json.Num 20);
                 ("y", Json.Num 220) ] ].

(** C1.  The drag response gives the answer away.  For the draw [a_draw]
    the response holds, under [positions], the coordinates of all three
    pieces, and sending that list back as the submission is accepted
    against the answers the handler stored in the session. *)
Theorem drag_response_reveals_positions (R : PuzzleCaptcha.renderer) :
  (out ← generate_drag_puzzle R a_draw ∅; Json.get "positions" out.1.1)
  = Some revealed
  /\ (out ← generate_drag_puzzle R a_draw ∅;
      Some (Json.mentions "positions" out.1.1)) = Some true
  /\ (out ← generate_drag_puzzle R a_draw ∅;
      verify_drag_puzzle (Json.Obj [ ("positions", revealed) ]) out.1.2)
     = Some (reply true "All pieces placed correctly!").
Proof. split; [|split]; vm_compute; reflexivity. Qed.

End ChallengeProofs.

(** ** More on the image cache *)

Module CacheBehaviour.

Import ImageCache CacheProofs.

(** *** Directory names *)

(** The characters [_get_category_dir] lets through. *)
Definition safe (c : ascii) : bool :=
  isalnum c || bool_decide (c = "-"%char) || bool_decide (c = "_"%char).

Fixpoint all_chars (P : ascii -> bool) (s : string) : bool :=
  match s with
  | EmptyString => true
  | String c s' => P c && all_chars P s'
  end.

Lemma safe_char_safe c : safe (safe_char c) = true.
Proof.
  unfold safe_char. fold (safe c).
  destruct (safe c) eqn:Hc; [exact Hc|reflexivity].
Qed.

Lemma safe_char_id c : safe c = true -> safe_char c = c.
Proof. unfold safe_char. fold (safe c). by intros ->. Qed.

Lemma safe_not_special c :
  safe c = true -> c <> "/"%char /\ c <> "\"%char /\ c <> "."%char.
Proof.
  intros Hc. repeat split; intros ->; vm_compute in Hc; discriminate Hc.
Qed.

(** X1.  The directory name of a category has the length of the category,
    consists of alphanumeric characters, [-] and [_] only (so it holds no
    path separator and no dot), and sanitizing it again changes nothing. *)
Theorem sanitize_safe (category : string) :
  String.length (sanitize category) = String.length category
  /\ all_chars safe (sanitize category) = true
  /\ all_chars (fun c => negb (bool_decide (c = "/"%char))
                         && negb (bool_decide (c = "\"%char))
                         && negb (bool_decide (c = "."%char)))
       (sanitize category) = true
  /\ sanitize (sanitize category) = sanitize category.
Proof.
  induction category as [|c s (Hlen & Hsafe & Hspecial & Hidem)];
    [repeat split|].
  cbn [sanitize all_chars String.length].
  rewrite Hlen, Hsafe, Hspecial, Hidem, safe_char_safe.
  rewrite (safe_char_id (safe_char c)) by apply safe_char_safe.
  destruct (safe_not_special _ (safe_char_safe c)) as (H1 & H2 & H3).
  rewrite !bool_decide_eq_false_2 by assumption. repeat split.
Qed.

(** *** Other directories are left alone *)






(** *** Expiry *)





(** *** Statistics *)







(** *** Reading *)

Lemma sample_length {A} (l : list A) k g :
  (length (Random.sample l k g).1 <= k)%nat
  /\ (length (Random.sample l k g).1 <= length l)%nat.
Proof.
  revert l g. induction k as [|k IH]; intros l g; simpl; [lia|].
  destruct (Random.next g) as [r g1].
  destruct (Random.pick _ l) as [[x rest]|] eqn:Hp; simpl; [|lia].
  apply ChallengeProofs.pick_Permutation, Permutation_length in Hp.
  specialize (IH rest g1). destruct (Random.sample rest k g1) as [xs g2].
  simpl in *. lia.
Qed.



Lemma load_images d size selected st :
  (length (load d (Some size) selected st).1 <= length selected)%nat
  /\ Forall (fun img => mode img = "RGB" /\ ImageCache.size img = size)
       (load d (Some size) selected st).1.
Proof.
  revert st. induction selected as [|f selected IH]; intros st; simpl.
  - split; [lia|constructor].
  - destruct (data f) as [img|].
    + specialize (IH st). destruct (load d (Some size) selected st).
      simpl in *. split; [lia|]. constructor; [done|tauto].
    + specialize (IH (unlink d (name f) st)). split; [lia|tauto].
Qed.







(** *** Saving *)











(** *** Metadata *)








End CacheBehaviour.

(** ** More on the token store *)

Module TokenBehaviour.

Import CloudflareCaptcha TokenProofs.

(** X9.  A verification sweeps the whole store: afterwards every entry is
    unexpired at the reading of the clock, none was added or altered, and
    every other token that was unexpired is still stored as it was. *)
Theorem verify_token_sweeps (self : self_t) (token : string) (now : Z) :
  let self' := (verify_token self token now).2 in
  (forall t i,
      valid_tokens self' !! t = Some i ->
      t <> token /\ now < expires_at i /\ valid_tokens self !! t = Some i)
  /\ (forall t i,
         t <> token -> valid_tokens self !! t = Some i ->
         now < expires_at i ->
         valid_tokens self' !! t = Some i)
  /\ token_expiry self' = token_expiry self.
Proof.
  cbv zeta. unfold verify_token.
  destruct (sweep now (valid_tokens self) !! token) as [j|] eqn:Hs; simpl.
  - split; [|split; [|done]].
    + intros t i [Hne Hi]%lookup_delete_Some.
      apply sweep_lookup_Some in Hi as [Hi Hlt]. done.
    + intros t i Hne Hi Hlt. apply lookup_delete_Some. split; [done|].
      by apply sweep_lookup_Some.
  - split; [|split; [|done]].
    + intros t i Hi. split; [by intros ->; rewrite Hs in Hi|].
      by apply sweep_lookup_Some in Hi as [Hi Hlt].
    + intros t i Hne Hi Hlt. by apply sweep_lookup_Some.
Qed.

Lemma verify_token_sweeps_witness :
  valid_tokens
    (verify_token
       (run init [ Complete "c1" true sample_minting;
                   Complete "c2" true other_minting ])
       "9f2c" 1350).2 !! "77ab"
  = Some {| challenge_id := "c2"; created_at := 1100; expires_at := 1400 |}.
Proof.
  destruct (verify_token_sweeps
              (run init [ Complete "c1" true sample_minting;
                          Complete "c2" true other_minting ])
              "9f2c" 1350) as (_ & Hkeep & _).
  apply Hkeep; [discriminate|vm_compute; reflexivity|simpl; lia].
Defined.

End TokenBehaviour.

(** ** The invisible-challenge handlers *)

Module CloudflareFlow.

Import CloudflareCaptcha TokenProofs App.



Lemma substring_nonempty n s :
  s <> "" -> substring 0 (S n) s <> "".
Proof. by destruct s. Qed.

(** X11.  The whole exchange: after the challenge handler and the
    completion handler, a verification request that carries no token of
    its own is served from the session and succeeds before the expiry; the
    same request sent again is rejected. *)
Theorem challenge_complete_verify_once (hexdigest : string) (env : minting)
    (session : gmap string Json.t) (store : self_t) (now later : Z) :
  hexdigest <> "" -> digest env <> "" ->
  now < expiry_reading env + token_expiry store ->
  exists challenge session1 answer session2 store2 store3,
    generate_cloudflare_captcha hexdigest session = Some (challenge, session1)
    /\ complete_cloudflare_captcha session1 store env
       = Some (answer, session2, store2)
    /\ Json.get "token" answer = Some (Json.Str (digest env))
    /\ verify_cloudflare_captcha (Json.Obj []) session2 store2 now
       = Some (verification_successful, store3)
    /\ fst <$> verify_cloudflare_captcha (Json.Obj []) session2 store3 later
       = Some invalid_or_expired.
Proof.
  intros Hhex Hdig Hnow.
  set (cid := generate_challenge_id hexdigest).
  assert (cid <> "") as Hcid by (by apply substring_nonempty).
  set (session1 := <["cloudflare_challenge_id" := Json.Str cid]> session).
  set (session2 := <["cloudflare_token" := Json.Str (digest env)]> session1).
  set (store2 := (generate_token store cid env).2).
  assert ((verify_token store2 (digest env) now).1
          = verification_successful) as Hfresh.
  { apply verify_token_succeeds. eexists. split.
    - simpl. apply lookup_insert_eq.
    - simpl. lia. }
  assert ((verify_token (verify_token store2 (digest env) now).2
             (digest env) later).1 = invalid_or_expired) as Hagain.
  { apply verify_token_fails. intros i Hi.
    by rewrite verify_token_consumes in Hi. }
  exists (generate hexdigest), session1,
    (complete_challenge store cid true env).1, session2, store2,
    (verify_token store2 (digest env) now).2.
  assert (forall st t,
             verify_cloudflare_captcha (Json.Obj []) session2 st t
             = Some (verify_token st (digest env) t)) as Hverify.
  { intros st t. unfold verify_cloudflare_captcha, or_value. simpl.
    unfold session2. rewrite lookup_insert_eq.
    by rewrite bool_decide_eq_false_2. }
  split; [reflexivity|]. split.
  - unfold complete_cloudflare_captcha, session1.
    rewrite lookup_insert_eq, bool_decide_eq_false_2 by done. reflexivity.
  - split; [reflexivity|]. rewrite !Hverify. split.
    + rewrite <- Hfresh. by destruct (verify_token store2 _ now).
    + simpl. by rewrite Hagain.
Qed.

Lemma challenge_complete_verify_once_witness :
  exists challenge session1 answer session2 store2 store3,
    generate_cloudflare_captcha "ab12" ∅ = Some (challenge, session1)
    /\ complete_cloudflare_captcha session1 init sample_minting
       = Some (answer, session2, store2)
    /\ Json.get "token" answer = Some (Json.Str (digest sample_minting))
    /\ verify_cloudflare_captcha (Json.Obj []) session2 store2 1299
       = Some (verification_successful, store3)
    /\ fst <$> verify_cloudflare_captcha (Json.Obj []) session2 store3 1300
       = Some invalid_or_expired.
Proof.
  apply challenge_complete_verify_once;
    [discriminate|discriminate|simpl; lia].
Defined.

End CloudflareFlow.

(** ** More on the puzzles *)

Module PuzzleBehaviour.

Import PuzzleCaptcha.

(** *** Draws without replacement *)

Lemma sample_NoDup {A} (l : list A) k g :
  NoDup l -> NoDup (Random.sample l k g).1.
Proof.
  revert l g. induction k as [|k IH]; intros l g Hnd; simpl;
    [constructor|].
  destruct (Random.next g) as [r g1].
  destruct (Random.pick _ l) as [[x rest]|] eqn:Hp; [|constructor].
  apply ChallengeProofs.pick_Permutation in Hp. rewrite Hp in Hnd.
  apply NoDup_cons in Hnd as [Hx Hrest].
  pose proof (ChallengeProofs.sample_Forall (fun y => y ∈ rest) rest k g1)
    as Hin.
  specialize (IH rest g1 Hrest).
  destruct (Random.sample rest k g1) as [xs g2]. simpl in *.
  apply NoDup_cons. split; [|done]. intros Hxs. apply Hx.
  assert (Forall (fun y => y ∈ rest) rest) as Hall
    by (by apply Forall_forall).
  specialize (Hin Hall). rewrite Forall_forall in Hin. by apply Hin.
Qed.

Lemma sample_length_exact {A} (l : list A) k g :
  (k <= length l)%nat -> length (Random.sample l k g).1 = k.
Proof.
  revert l g. induction k as [|k IH]; intros l g Hk; simpl; [done|].
  destruct (Random.next g) as [r g1].
  destruct (ChallengeProofs.pick_is_Some (r mod length l) l)
    as [[x rest] Hp]; [apply Nat.mod_upper_bound; lia|].
  rewrite Hp.
  assert (length l = S (length rest)) as Hlen
    by (by apply ChallengeProofs.pick_Permutation, Permutation_length in Hp).
  specialize (IH rest g1). destruct (Random.sample rest k g1) as [xs g2].
  simpl in *. rewrite IH; [done|lia].
Qed.

Lemma randint_range a b g :
  a <= b -> a <= (Random.randint a b g).1 <= b.
Proof.
  intros Hab. unfold Random.randint. destruct (Random.next g) as [r g1].
  simpl. pose proof (Z.mod_pos_bound (Z.of_nat r) (b - a + 1)). lia.
Qed.

(** *** The sliding puzzle *)

(** X12.  Whatever the draw, the hole of the sliding puzzle lies between
    50 pixels from the top and 100 from the left edge on one side and 50
    pixels from the bottom and right edges on the other, and the tolerance
    handed out is 10. *)
Theorem sliding_puzzle_in_range (self : self_t) (R : renderer)
    (g : Random.rng) :
  piece_size self + 150 <= puzzle_size self ->
  exists piece_y correct_x,
    let result := (generate_sliding_puzzle self R g).1 in
    Json.get "piece_y" result = Some (Json.Num piece_y)
    /\ Json.get "correct_x" result = Some (Json.Num correct_x)
    /\ Json.get "tolerance" result = Some (Json.Num 10)
    /\ 50 <= piece_y /\ piece_y + piece_size self + 50 <= puzzle_size self
    /\ 100 <= correct_x
    /\ correct_x + piece_size self + 50 <= puzzle_size self.
Proof.
  intros Hsize. unfold generate_sliding_puzzle.
  pose proof (randint_range 50 (puzzle_size self - piece_size self - 50) g)
    as Hy.
  destruct (Random.randint 50 _ g) as [piece_y g1].
  pose proof (randint_range 100 (puzzle_size self - piece_size self - 50) g1)
    as Hx.
  destruct (Random.randint 100 _ g1) as [correct_x g2]. simpl in *.
  exists piece_y, correct_x. repeat split; try reflexivity; lia.
Qed.

Lemma sliding_puzzle_in_range_witness :
  exists piece_y correct_x,
    let result := (generate_sliding_puzzle init
                     (Renderer (fun _ _ => "bg") (fun _ _ => "piece")
                        (fun _ => "bg") (fun _ _ => "piece"))
                     [7; 13]%nat).1 in
    Json.get "piece_y" result = Some (Json.Num piece_y)
    /\ Json.get "correct_x" result = Some (Json.Num correct_x)
    /\ Json.get "tolerance" result = Some (Json.Num 10)
    /\ 50 <= piece_y /\ piece_y + piece_size init + 50 <= puzzle_size init
    /\ 100 <= correct_x
    /\ correct_x + piece_size init + 50 <= puzzle_size init.
Proof. apply sliding_puzzle_in_range. simpl. lia. Defined.

(** *** The drag puzzle *)

Definition cell_of (p : Z * Z * Z) : Z * Z := (p.1.2, p.2).

(** What [generate_drag_puzzle] returns, in terms of the cells drawn and
    the order the pieces are shown in. *)
Lemma generate_drag_puzzle_shape (R : renderer) (g : Random.rng) :
  exists cells shuffled,
    let placed := imap (place init 100) cells in
    (generate_drag_puzzle init R g).1
    = Json.Obj
        [ ("type", Json.Str "drag");
          ("background", Json.Str (drag_background R placed));
          ("pieces", Json.Arr (piece_entry R <$> shuffled));
          ("positions", Json.Arr (position_entry <$> placed));
          ("tolerance", Json.Num 15);
          ("puzzle_width", Json.Num 300);
          ("puzzle_height", Json.Num 300);
          ("piece_size", Json.Num 60) ]
    /\ NoDup cells /\ length cells = 3%nat
    /\ Forall (fun c => c ∈ available_cells 3) cells
    /\ shuffled ≡ₚ placed.
Proof.
  unfold generate_drag_puzzle.
  pose proof (sample_NoDup (available_cells 3) 3 g) as Hnd.
  pose proof (sample_length_exact (available_cells 3) 3 g) as Hlen.
  pose proof (ChallengeProofs.sample_Forall
                (fun c => c ∈ available_cells 3) (available_cells 3) 3 g)
    as Hin.
  destruct (Random.sample (available_cells 3) 3 g) as [cells g1].
  simpl in Hnd, Hlen, Hin.
  change (puzzle_size init / Z.of_nat 3) with 100.
  set (placed := imap (place init 100) cells).
  pose proof (ChallengeProofs.shuffle_Permutation placed g1) as Hperm.
  unfold Random.shuffle in *.
  rewrite length_fmap, ChallengeProofs.sample_fmap.
  destruct (Random.sample placed (length placed) g1) as [shuffled g2].
  simpl in *. exists cells, shuffled. split; [reflexivity|].
  split; [apply Hnd; apply (bool_decide_unpack _); vm_compute; reflexivity|].
  split; [apply Hlen; vm_compute; lia|]. split; [|done].
  apply Hin, Forall_forall. auto.
Qed.

Lemma placed_cells (cells : list (Z * Z)) :
  cell_of <$> imap (place init 100) cells
  = (fun c : Z * Z => (c.1 * 100 + 20, c.2 * 100 + 20)) <$> cells.
Proof.
  rewrite fmap_imap. rewrite <- (imap_const _ cells). apply imap_ext.
  by intros i [gx gy] _.
Qed.

Lemma elem_of_three (a b c x : Z) : x ∈ [a; b; c] <-> x = a \/ x = b \/ x = c.
Proof. rewrite !elem_of_cons, elem_of_nil. tauto. Qed.

(** X13.  Whatever the draw, the drag puzzle has three positions, numbered
    0, 1, 2 in placement order, with both coordinates among 20, 120 and
    220; two different pieces are at least a piece size apart along one
    axis, so they do not overlap; and the pieces shown are the same three,
    rearranged. *)
Theorem drag_puzzle_layout (R : renderer) (g : Random.rng) :
  exists placed shuffled,
    let result := (generate_drag_puzzle init R g).1 in
    Json.get "positions" result
    = Some (Json.Arr (position_entry <$> placed))
    /\ Json.get "pieces" result = Some (Json.Arr (piece_entry R <$> shuffled))
    /\ shuffled ≡ₚ placed
    /\ (fun p => p.1.1) <$> placed = [0; 1; 2]
    /\ Forall (fun p => p.1.2 ∈ [20; 120; 220] /\ p.2 ∈ [20; 120; 220])
         placed
    /\ (forall i j p q,
           placed !! i = Some p -> placed !! j = Some q -> i <> j ->
           piece_size init <= Z.abs (p.1.2 - q.1.2)
           \/ piece_size init <= Z.abs (p.2 - q.2)).
Proof.
  destruct (generate_drag_puzzle_shape R g)
    as (cells & shuffled & Hres & Hnd & Hlen & Hin & Hperm).
  cbv zeta in Hres. exists (imap (place init 100) cells), shuffled.
  cbv zeta. rewrite Hres. set (placed := imap (place init 100) cells) in *.
  assert (Forall (fun c : Z * Z => c.1 ∈ [0; 1; 2] /\ c.2 ∈ [0; 1; 2]) cells)
    as Hcells.
  { eapply Forall_impl; [exact Hin|]. intros c Hc. revert c Hc.
    apply Forall_forall. vm_compute.
    repeat constructor. }
  split; [reflexivity|]. split; [reflexivity|]. split; [done|].
  split; [|split].
  - unfold placed. rewrite ChallengeProofs.placed_ids, Hlen. reflexivity.
  - apply Forall_forall. intros p Hp.
    assert (cell_of p ∈ cell_of <$> placed) as Hc
      by (by apply list_elem_of_fmap_2).
    unfold placed in Hc. rewrite placed_cells in Hc.
    apply list_elem_of_fmap in Hc as ([gx gy] & Heq & Hc).
    rewrite Forall_forall in Hcells. destruct (Hcells _ Hc) as [Hgx Hgy].
    unfold cell_of in Heq. simpl in *. injection Heq as -> ->.
    rewrite !elem_of_three in *. lia.
  - intros i j p q Hp Hq Hij.
    assert (cell_of p <> cell_of q) as Hne.
    { assert (NoDup (cell_of <$> placed)) as Hnd'.
      { unfold placed. rewrite placed_cells. apply NoDup_fmap_2; [|done].
        intros [a b] [c d] [=]. f_equal; lia. }
      intros Heq. apply Hij.
      eapply (NoDup_lookup _ i j (cell_of p) Hnd');
        rewrite list_lookup_fmap; [by rewrite Hp|by rewrite Hq, Heq]. }
    assert (forall r, r ∈ placed ->
                      r.1.2 ∈ [20; 120; 220] /\ r.2 ∈ [20; 120; 220])
      as Hcoord.
    { intros r Hr.
      assert (cell_of r ∈ cell_of <$> placed) as Hc
        by (by apply list_elem_of_fmap_2).
      unfold placed in Hc. rewrite placed_cells in Hc.
      apply list_elem_of_fmap in Hc as ([gx gy] & Heq & Hc).
      rewrite Forall_forall in Hcells. destruct (Hcells _ Hc) as [Hgx Hgy].
      unfold cell_of in Heq. simpl in *. injection Heq as -> ->.
      rewrite !elem_of_three in *. lia. }
    destruct (Hcoord p) as [Hpx Hpy]; [by eapply list_elem_of_lookup_2|].
    destruct (Hcoord q) as [Hqx Hqy]; [by eapply list_elem_of_lookup_2|].
    unfold cell_of in Hne. simpl.
    destruct (decide (p.1.2 = q.1.2)) as [Hx|Hx];
      destruct (decide (p.2 = q.2)) as [Hy|Hy].
    + exfalso. apply Hne. by rewrite Hx, Hy.
    + right. rewrite !elem_of_three in *. lia.
    + left. rewrite !elem_of_three in *. lia.
    + left. rewrite !elem_of_three in *. lia.
Qed.

(** *** Accepted submissions *)

(** X16.  When neither the submission nor the truth repeats an id, an
    accepted submission places every piece of the truth: for each truth
    entry there is a submitted entry with its id that is within the
    tolerance on both axes. *)
Theorem accepted_drag_places_every_piece (submitted : list submitted_t)
    (correct : list correct_t) (tolerance : Z) :
  NoDup (s_id <$> submitted) -> NoDup (c_id <$> correct) ->
  verify_drag submitted correct tolerance = true ->
  forall c, c ∈ correct ->
    exists s, s ∈ submitted /\ s_id s = c_id c
              /\ Z.abs (s_x s - c_x c) <= tolerance
              /\ Z.abs (s_y s - c_y c) <= tolerance.
Proof.
  intros Hs Hc Hv c Hin.
  pose proof (PuzzleProofs.verify_drag_ids_complete _ _ _ Hs Hv) as Hids.
  apply PuzzleProofs.verify_drag_true in Hv as [_ Hall].
  assert (c_id c ∈ PuzzleProofs.submitted_ids submitted) as Hid.
  { rewrite Hids. unfold PuzzleProofs.correct_ids.
    apply elem_of_list_to_set. by apply list_elem_of_fmap_2. }
  unfold PuzzleProofs.submitted_ids in Hid.
  apply elem_of_list_to_set, list_elem_of_fmap in Hid as (s & Hsid & Hsin).
  rewrite Forall_forall in Hall.
  destruct (Hall s Hsin) as (cx & cy & Hm & Hx & Hy).
  rewrite <- Hsid, (PuzzleProofs.correct_map_lookup correct c Hc Hin) in Hm.
  injection Hm as <- <-. by exists s.
Qed.

Lemma accepted_drag_places_every_piece_witness :
  exists s,
    s ∈ [ Submitted 1 110 125; Submitted 0 20 30 ]
    /\ s_id s = 0 /\ Z.abs (s_x s - 20) <= 15 /\ Z.abs (s_y s - 20) <= 15.
Proof.
  apply (accepted_drag_places_every_piece
           [ Submitted 1 110 125; Submitted 0 20 30 ]
           [ Correct 0 20 20; Correct 1 120 120 ] 15
           ltac:(apply (bool_decide_unpack _); vm_compute; reflexivity)
           ltac:(apply (bool_decide_unpack _); vm_compute; reflexivity)
           ltac:(vm_compute; reflexivity)
           (Correct 0 20 20)).
  apply list_elem_of_here.
Defined.


End PuzzleBehaviour.

(** ** Challenges and their verification, end to end *)

Module ChallengeFlow.

Import App ChallengeProofs.

(** What the drag handler answers and stores, in terms of the pieces
    placed and the order they are shown in. *)
Lemma drag_handler_shape (R : PuzzleCaptcha.renderer) (g : Random.rng)
    (session : gmap string Json.t) :
  exists placed shuffled response g',
    generate_drag_puzzle R g session
    = Some (response,
            <["drag_puzzle_tolerance" := Json.Num 15]>
              (<["drag_puzzle_answers" :=
                   Json.Arr (answer_entry <$> shuffled)]> session),
            g')
    /\ Json.get "positions" response
       = Some (Json.Arr (PuzzleCaptcha.position_entry <$> placed))
    /\ shuffled ≡ₚ placed
    /\ (fun p => p.1.1) <$> placed = [0; 1; 2].
Proof.
  destruct (PuzzleBehaviour.generate_drag_puzzle_shape R g)
    as (cells & shuffled & Hshape & _ & Hlen & _ & Hperm).
  cbv zeta in Hshape, Hperm.
  set (placed := imap (PuzzleCaptcha.place PuzzleCaptcha.init 100) cells)
    in *.
  assert ((fun p => p.1.1) <$> placed = [0; 1; 2]) as Hids.
  { unfold placed. rewrite ChallengeProofs.placed_ids, Hlen. reflexivity. }
  unfold generate_drag_puzzle.
  destruct (PuzzleCaptcha.generate_drag_puzzle PuzzleCaptcha.init R g)
    as [result g2]. simpl in Hshape. subst result.
  assert (project_each ["id"; "correct_x"; "correct_y"]
            (Json.Arr (PuzzleCaptcha.piece_entry R <$> shuffled))
          = Some (answer_entry <$> shuffled)) as Ha.
  { apply mapM_fmap_to. by intros [[? ?] ?]. }
  assert (is_Some (project_each ["id"; "image"]
                     (Json.Arr (PuzzleCaptcha.piece_entry R <$> shuffled))))
    as [shown Hs].
  { eexists. apply (mapM_fmap_to _ _
      (fun p => Json.Obj [ ("id", Json.Num p.1.1);
                           ("image",
                            Json.Str (PuzzleCaptcha.drag_piece R p.1.2 p.2)) ])).
    by intros [[? ?] ?]. }
  set (result := Json.Obj _).
  assert (Json.get "pieces" result
          = Some (Json.Arr (PuzzleCaptcha.piece_entry R <$> shuffled))) as Hp
    by reflexivity.
  assert (Json.get "tolerance" result = Some (Json.Num 15)) as Ht
    by reflexivity.
  assert (is_Some (Json.get "background" result)) as [bg Hb] by (by eexists).
  assert (Json.get "positions" result
          = Some (Json.Arr (PuzzleCaptcha.position_entry <$> placed))) as Hq
    by reflexivity.
  assert (project ["puzzle_width"; "puzzle_height"; "piece_size"] result
          = Some [ ("puzzle_width", Json.Num 300);
                   ("puzzle_height", Json.Num 300);
                   ("piece_size", Json.Num 60) ]) as Hr by reflexivity.
  rewrite Hp, Ht, Hb, Hq, Hr. simpl. rewrite Ha. simpl. rewrite Hs. simpl.
  eexists placed, shuffled, _, g2. split; [reflexivity|].
  split; [reflexivity|]. done.
Qed.

(** The drag verification on a submission given by its entries, against
    what the handler stored. *)
Lemma verify_drag_puzzle_stored (session : gmap string Json.t)
    (shuffled submitted : list (Z * Z * Z)) :
  verify_drag_puzzle
    (Json.Obj [ ("positions",
                 Json.Arr (PuzzleCaptcha.position_entry <$> submitted)) ])
    (<["drag_puzzle_tolerance" := Json.Num 15]>
       (<["drag_puzzle_answers" := Json.Arr (answer_entry <$> shuffled)]>
          session))
  = Some (if PuzzleCaptcha.verify_drag (to_submitted <$> submitted)
               (to_correct <$> shuffled) 15
          then reply true "All pieces placed correctly!"
          else reply false "Some pieces are not in the right position.").
Proof.
  unfold verify_drag_puzzle. simpl.
  rewrite (mapM_fmap_to submitted_of _ to_submitted)
    by (by intros [[? ?] ?]).
  csimpl. rewrite lookup_insert_eq.
  rewrite lookup_insert_ne by done. rewrite lookup_insert_eq. csimpl.
  rewrite (mapM_fmap_to correct_of _ to_correct) by (by intros [[? ?] ?]).
  done.
Qed.

Definition shift (dx dy : Z) (p : Z * Z * Z) : Z * Z * Z :=
  (p.1.1, p.1.2 + dx, p.2 + dy).

(** X14.  Whatever the draw, the positions of the drag puzzle moved by an
    offset that exceeds the tolerance of 15 along one axis are rejected by
    the verification handler. *)
Theorem drag_shifted_rejected (R : PuzzleCaptcha.renderer) (g : Random.rng)
    (session : gmap string Json.t) (dx dy : Z) :
  15 < Z.abs dx \/ 15 < Z.abs dy ->
  exists placed response session' g',
    generate_drag_puzzle R g session = Some (response, session', g')
    /\ Json.get "positions" response
       = Some (Json.Arr (PuzzleCaptcha.position_entry <$> placed))
    /\ verify_drag_puzzle
         (Json.Obj [ ("positions",
                      Json.Arr (PuzzleCaptcha.position_entry
                                  <$> (shift dx dy <$> placed))) ])
         session'
       = Some (reply false "Some pieces are not in the right position.").
Proof.
  intros Hfar.
  destruct (drag_handler_shape R g session)
    as (placed & shuffled & response & g' & Hgen & Hpos & Hperm & Hids).
  eexists placed, response, _, g'. split; [exact Hgen|].
  split; [exact Hpos|].
  rewrite verify_drag_puzzle_stored.
  destruct (PuzzleCaptcha.verify_drag _ _ 15) eqn:Hv; [|done].
  exfalso. apply PuzzleProofs.verify_drag_true in Hv as [_ Hall].
  destruct placed as [|[[id x] y] placed]; [done|].
  rewrite !fmap_cons in Hall. apply Forall_cons in Hall as [Hfirst _].
  destruct Hfirst as (cx & cy & Hm & Hx & Hy). simpl in Hm, Hx, Hy.
  assert (PuzzleCaptcha.correct_map (to_correct <$> shuffled) !! id
          = Some (x, y)) as Hlook.
  { apply (PuzzleProofs.correct_map_lookup _
             (PuzzleCaptcha.Correct id x y)).
    - rewrite <- list_fmap_compose.
      rewrite (list_fmap_ext (PuzzleCaptcha.c_id ∘ to_correct)
                 (fun p => p.1.1) shuffled) by (by intros i [[? ?] ?] _).
      rewrite Hperm, Hids. apply (bool_decide_unpack _). vm_compute.
      reflexivity.
    - apply (list_elem_of_fmap_2 to_correct _ (id, x, y)).
      rewrite Hperm. apply list_elem_of_here. }
  rewrite Hlook in Hm. injection Hm as <- <-. lia.
Qed.

Lemma drag_shifted_rejected_witness :
  exists placed response session' g',
    generate_drag_puzzle
      (PuzzleCaptcha.Renderer (fun _ _ => "bg") (fun _ _ => "piece")
         (fun _ => "bg") (fun _ _ => "piece")) a_draw ∅
    = Some (response, session', g')
    /\ Json.get "positions" response
       = Some (Json.Arr (PuzzleCaptcha.position_entry <$> placed))
    /\ verify_drag_puzzle
         (Json.Obj [ ("positions",
                      Json.Arr (PuzzleCaptcha.position_entry
                                  <$> (shift 20 20 <$> placed))) ])
         session'
       = Some (reply false "Some pieces are not in the right position.").
Proof. apply drag_shifted_rejected. left. simpl. lia. Defined.

(** X17.  Whatever the draw, the positions of the drag puzzle, all moved
    by one offset of at most 15 along each axis (the exact positions
    included), are accepted by the verification handler. *)
Theorem drag_within_tolerance_accepted (R : PuzzleCaptcha.renderer)
    (g : Random.rng) (session : gmap string Json.t) (dx dy : Z) :
  Z.abs dx <= 15 -> Z.abs dy <= 15 ->
  exists placed response session' g',
    generate_drag_puzzle R g session = Some (response, session', g')
    /\ Json.get "positions" response
       = Some (Json.Arr (PuzzleCaptcha.position_entry <$> placed))
    /\ verify_drag_puzzle
         (Json.Obj [ ("positions",
                      Json.Arr (PuzzleCaptcha.position_entry
                                  <$> (shift dx dy <$> placed))) ])
         session'
       = Some (reply true "All pieces placed correctly!").
Proof.
  intros Hdx Hdy.
  destruct (drag_handler_shape R g session)
    as (placed & shuffled & response & g' & Hgen & Hpos & Hperm & Hids).
  eexists placed, response, _, g'. split; [exact Hgen|].
  split; [exact Hpos|].
  rewrite verify_drag_puzzle_stored.
  rewrite (proj2 (PuzzleProofs.verify_drag_true _ _ 15)); [done|].
  split.
  - rewrite !length_fmap. symmetry. by apply Permutation_length.
  - rewrite <- list_fmap_compose. apply Forall_fmap, Forall_forall.
    intros [[id x] y] Hp. simpl. exists x, y. split; [|lia].
    apply (PuzzleProofs.correct_map_lookup _
             (PuzzleCaptcha.Correct id x y)).
    + rewrite <- list_fmap_compose.
      rewrite (list_fmap_ext (PuzzleCaptcha.c_id ∘ to_correct)
                 (fun p => p.1.1) shuffled) by (by intros i [[? ?] ?] _).
      rewrite Hperm, Hids. apply (bool_decide_unpack _). vm_compute.
      reflexivity.
    + apply (list_elem_of_fmap_2 to_correct _ (id, x, y)). by rewrite Hperm.
Qed.

Lemma drag_within_tolerance_accepted_witness :
  exists placed response session' g',
    generate_drag_puzzle
      (PuzzleCaptcha.Renderer (fun _ _ => "bg") (fun _ _ => "piece")
         (fun _ => "bg") (fun _ _ => "piece")) a_draw ∅
    = Some (response, session', g')
    /\ Json.get "positions" response
       = Some (Json.Arr (PuzzleCaptcha.position_entry <$> placed))
    /\ verify_drag_puzzle
         (Json.Obj [ ("positions",
                      Json.Arr (PuzzleCaptcha.position_entry
                                  <$> (shift (-15) 7 <$> placed))) ])
         session'
       = Some (reply true "All pieces placed correctly!").
Proof. apply drag_within_tolerance_accepted; simpl; lia. Defined.

(** X18.  Whatever the draw, the sliding handler keeps the answer out of
    the response and stores it with the tolerance of 10; the answer lies
    between 100 and 190; and a later request is accepted exactly when its
    [x] is within 10 of the stored answer. *)
Theorem sliding_challenge_then_verify (R : PuzzleCaptcha.renderer)
    (g : Random.rng) (session : gmap string Json.t) :
  exists response session' g' correct_x,
    generate_sliding_puzzle R g session = Some (response, session', g')
    /\ Json.mentions "correct_x" response = false
    /\ Json.mentions "tolerance" response = false
    /\ 100 <= correct_x <= 190
    /\ forall x,
         verify_sliding_puzzle_request (Json.Obj [ ("x", Json.Num x) ])
           session'
         = Some (if bool_decide (Z.abs (x - correct_x) <= 10)
                 then reply true "Puzzle solved correctly!"
                 else reply false "Incorrect position. Try again.").
Proof.
  unfold generate_sliding_puzzle, PuzzleCaptcha.generate_sliding_puzzle.
  destruct (Random.randint 50 _ g) as [piece_y g1].
  pose proof (PuzzleBehaviour.randint_range 100
                (PuzzleCaptcha.puzzle_size PuzzleCaptcha.init
                 - PuzzleCaptcha.piece_size PuzzleCaptcha.init - 50) g1)
    as Hx.
  destruct (Random.randint 100 _ g1) as [correct_x g2]. simpl in *.
  eexists _, _, _, correct_x. split; [reflexivity|].
  split; [reflexivity|]. split; [reflexivity|]. split; [lia|].
  intros x. unfold verify_sliding_puzzle_request. simpl.
  rewrite lookup_insert_eq. rewrite lookup_insert_ne by done.
  rewrite lookup_insert_eq. csimpl.
  unfold verify_sliding_puzzle, PuzzleCaptcha.verify_sliding.
  destruct (Z.leb_spec (Z.abs (x - correct_x)) 10).
  - by rewrite bool_decide_eq_true_2.
  - rewrite bool_decide_eq_false_2; [done|lia].
Qed.




End ChallengeFlow.

(** ** More on the image grid *)

Module GridBehaviour.

Import ImageCaptcha.

(** One cell of the grid, as [generate] builds it. *)
Definition cell (picture : string -> Z -> string) (cat : string)
    (is_correct : bool) (i : Z) : Json.t :=
  Json.Obj [ ("image", Json.Str (picture cat i));
             ("category", Json.Str cat);
             ("is_correct", Json.Bool is_correct);
             ("index", Json.Num i) ].

(** A cell at index [i] that shows the target exactly when [i] is one of
    the correct indices. *)
Definition fits (picture : string -> Z -> string) (target : string)
    (correct : list Z) (i : Z) (j : Json.t) : Prop :=
  exists cat,
    j = cell picture cat (bool_decide (i ∈ correct)) i
    /\ (cat = target <-> i ∈ correct).

Lemma fill_grid_fits picture target correct wrong indices idx :
  Forall (fun c => c <> target) wrong ->
  (idx + length (filter (fun i => i ∉ correct) indices) <= length wrong)%nat ->
  exists images,
    fill_grid picture target correct wrong idx indices = Some images
    /\ Forall2 (fits picture target correct) indices images.
Proof.
  intros Hwrong. revert idx.
  induction indices as [|i indices IH]; intros idx Hroom; simpl.
  - by exists [].
  - rewrite filter_cons in Hroom. destruct (decide (i ∈ correct)) as [Hi|Hi].
    + rewrite decide_False in Hroom by tauto.
      destruct (IH idx Hroom) as (images & -> & Hall). simpl.
      eexists. split; [reflexivity|]. constructor; [|done].
      exists target. by rewrite bool_decide_eq_true_2.
    + rewrite decide_True in Hroom by done. simpl in Hroom.
      destruct (lookup_lt_is_Some_2 wrong idx) as [c Hc]; [lia|].
      rewrite Hc. simpl.
      destruct (IH (S idx)) as (images & -> & Hall); [lia|].
      eexists. split; [reflexivity|]. constructor; [|done].
      exists c. rewrite bool_decide_eq_false_2 by done. split; [done|].
      rewrite Forall_forall in Hwrong. split; [|done].
      intros ->. exfalso. eapply Hwrong; [|done].
      by eapply list_elem_of_lookup_2.
Qed.

Lemma wrong_cells_count (correct : list Z) :
  NoDup correct -> Forall (fun i => i ∈ range 9) correct ->
  (length (filter (fun i => i ∉ correct) (range 9)) + length correct
   = 9)%nat.
Proof.
  intros Hnd Hin.
  assert (filter (fun i => i ∈ correct) (range 9) ≡ₚ correct) as Hperm.
  { apply NoDup_Permutation; [|done|].
    - apply NoDup_filter. apply (bool_decide_unpack _). vm_compute.
      reflexivity.
    - intros i. rewrite list_elem_of_filter. rewrite Forall_forall in Hin.
      split; [tauto|]. auto. }
  rewrite <- Hperm, Nat.add_comm, <- length_app.
  rewrite (filter_app_complement (fun i => i ∈ correct) (range 9)).
  reflexivity.
Qed.

Lemma wrong_categories_count target :
  target ∈ categories ->
  length (filter (fun c => c <> target) categories) = 9%nat.
Proof.
  unfold categories. intros Hin.
  repeat (apply elem_of_cons in Hin as [->|Hin];
          [vm_compute; reflexivity|]).
  by apply elem_of_nil in Hin.
Qed.

(** What [generate] returns, in terms of the target and the correct
    indices drawn. *)
Lemma generate_shape (picture : string -> Z -> string)
    (g : Random.rng) :
  exists target correct cells g',
    generate picture g
    = Some (Json.Obj
              [ ("target", Json.Str target);
                ("prompt",
                 Json.Str ("Select all images containing a " +:+ target));
                ("images", Json.Arr cells);
                ("correct_indices", Json.Arr (Json.Num <$> sorted correct));
                ("required_selections", Json.Num 3) ],
            g')
    /\ target ∈ categories
    /\ NoDup correct /\ length correct = 3%nat
    /\ Forall (fun i => 0 <= i < 9) correct
    /\ Sorted Z.le (sorted correct)
    /\ Forall2 (fits picture target correct) (range 9) cells.
Proof.
  unfold generate, Random.choice.
  destruct (Random.next g) as [r g1].
  destruct (lookup_lt_is_Some_2 categories (r mod length categories))
    as [target Htarget]; [apply Nat.mod_upper_bound; done|].
  rewrite Htarget.
  assert (target ∈ categories) as Hin by (by eapply list_elem_of_lookup_2).
  set (wrong_categories := filter (fun c => c <> target) categories).
  assert (length wrong_categories = 9%nat) as Hlen
    by (by apply wrong_categories_count).
  rewrite Hlen. change (6 <=? 9)%nat with true. cbv beta iota.
  pose proof (PuzzleBehaviour.sample_length_exact wrong_categories 6 g1)
    as Hsel.
  pose proof (ChallengeProofs.sample_Forall (fun c => c <> target)
                wrong_categories 6 g1) as Hne.
  destruct (Random.sample wrong_categories 6 g1) as [selected_wrong g2].
  simpl in Hsel, Hne.
  pose proof (PuzzleBehaviour.sample_NoDup (range 9) 3 g2) as Hnd.
  pose proof (PuzzleBehaviour.sample_length_exact (range 9) 3 g2) as Hthree.
  pose proof (ChallengeProofs.sample_Forall (fun i => i ∈ range 9)
                (range 9) 3 g2) as Hrange.
  destruct (Random.sample (range 9) 3 g2) as [correct g3].
  simpl in Hnd, Hthree, Hrange.
  assert (NoDup correct) as Hnd'.
  { apply Hnd, (bool_decide_unpack _). vm_compute. reflexivity. }
  assert (length correct = 3%nat) as Hthree' by (apply Hthree; vm_compute; lia).
  assert (Forall (fun i => i ∈ range 9) correct) as Hrange'
    by (apply Hrange, Forall_forall; auto).
  assert (Forall (fun c => c <> target) selected_wrong) as Hne'.
  { apply Hne, Forall_forall. intros c Hc.
    by apply list_elem_of_filter in Hc as [? _]. }
  destruct (fill_grid_fits picture target correct selected_wrong (range 9) 0
              Hne') as (cells & Hfill & Hfits).
  { pose proof (wrong_cells_count correct Hnd' Hrange').
    rewrite Hsel by lia. lia. }
  rewrite Hfill. exists target, correct, cells, g3.
  split; [reflexivity|]. split; [done|]. split; [done|]. split; [done|].
  split; [|split; [|done]].
  - eapply Forall_impl; [exact Hrange'|]. intros i.
    revert i. apply Forall_forall. vm_compute.
    repeat constructor; done.
  - apply Sorted_merge_sort; apply _.
Qed.

Lemma range_lookup (n i : nat) (x : Z) :
  range n !! i = Some x -> x = Z.of_nat i /\ (i < n)%nat.
Proof.
  unfold range. rewrite list_lookup_fmap.
  destruct (seq 0 n !! i) as [k|] eqn:Hk; [|done].
  apply lookup_seq in Hk as [-> ?]. intros [= <-]. done.
Qed.

(** X19.  [generate] always answers.  The grid has nine cells; three
    different indices below nine are correct, and they are stored in
    increasing order; the cell in place [i] carries index [i], and it shows
    the target category, and is flagged correct, exactly when [i] is one of
    the three. *)
Theorem grid_challenge_structure (picture : string -> Z -> string)
    (g : Random.rng) :
  exists target correct cells g',
    generate picture g
    = Some (Json.Obj
              [ ("target", Json.Str target);
                ("prompt",
                 Json.Str ("Select all images containing a " +:+ target));
                ("images", Json.Arr cells);
                ("correct_indices", Json.Arr (Json.Num <$> sorted correct));
                ("required_selections", Json.Num 3) ],
            g')
    /\ target ∈ categories
    /\ NoDup correct /\ length correct = 3%nat
    /\ Forall (fun i => 0 <= i < 9) correct
    /\ Sorted Z.le (sorted correct)
    /\ length cells = 9%nat
    /\ forall (i : nat) j,
         cells !! i = Some j ->
         exists cat,
           j = Json.Obj
                 [ ("image", Json.Str (picture cat (Z.of_nat i)));
                   ("category", Json.Str cat);
                   ("is_correct",
                    Json.Bool (bool_decide (Z.of_nat i ∈ correct)));
                   ("index", Json.Num (Z.of_nat i)) ]
           /\ (cat = target <-> Z.of_nat i ∈ correct).
Proof.
  destruct (generate_shape picture g)
    as (target & correct & cells & g' & Hgen & Hin & Hnd & Hlen & Hrange
        & Hsorted & Hfits).
  exists target, correct, cells, g'.
  split; [exact Hgen|]. split; [exact Hin|]. split; [exact Hnd|].
  split; [exact Hlen|]. split; [exact Hrange|]. split; [exact Hsorted|].
  split.
  - apply Forall2_length in Hfits. rewrite <- Hfits. reflexivity.
  - intros i j Hj.
    destruct (Forall2_lookup_r _ _ _ _ _ Hfits Hj) as (x & Hx & cat & -> & Hc).
    apply range_lookup in Hx as [-> _]. by exists cat.
Qed.

(** What the grid handler stores. *)
Definition stored (correct : list Z) (session : gmap string Json.t)
  : gmap string Json.t :=
  <["image_required_selections" := Json.Num 3]>
    (<["image_captcha_answers" := Json.Arr (Json.Num <$> sorted correct)]>
       session).

Lemma fits_is_cell picture target correct indices cells :
  Forall2 (fits picture target correct) indices cells ->
  Forall ChallengeProofs.is_cell cells.
Proof.
  induction 1 as [|i j indices cells (cat & -> & _) _ IH]; constructor;
    [|exact IH].
  by eexists _, _, _, _.
Qed.

Lemma generate_image_captcha_shape picture g session :
  exists correct response g',
    App.generate_image_captcha picture g session
    = Some (response, stored correct session, g')
    /\ NoDup correct /\ length correct = 3%nat
    /\ Forall (fun i => 0 <= i < 9) correct.
Proof.
  destruct (generate_shape picture g)
    as (target & correct & cells & g' & Hgen & _ & Hnd & Hlen & Hrange
        & _ & Hfits).
  apply fits_is_cell, ChallengeProofs.project_each_cells in Hfits
    as (shown & Hshown & _).
  exists correct. unfold App.generate_image_captcha. rewrite Hgen.
  csimpl. simpl in Hshown. rewrite Hshown. csimpl.
  eexists _, g'. split; [reflexivity|done].
Qed.

Lemma selected_of_request (selected : list Z) :
  Json.as_arr
    (default (Json.Arr [])
       (Json.get "selected_indices"
          (Json.Obj [ ("selected_indices",
                       Json.Arr (Json.Num <$> selected)) ])))
  ≫= mapM Json.as_num
  = Some selected.
Proof.
  change (mapM Json.as_num (Json.Num <$> selected) = Some selected).
  rewrite (ChallengeProofs.mapM_fmap_to Json.as_num Json.Num id) by done.
  by rewrite list_fmap_id.
Qed.

Lemma verify_stored (selected correct : list Z)
    (session : gmap string Json.t) :
  App.verify_image_captcha_request
    (Json.Obj [ ("selected_indices", Json.Arr (Json.Num <$> selected)) ])
    (stored correct session)
  = Some (App.verify_image_captcha selected (sorted correct) 3).
Proof.
  unfold App.verify_image_captcha_request. rewrite selected_of_request.
  unfold stored. rewrite lookup_insert_eq.
  rewrite lookup_insert_ne by done. rewrite lookup_insert_eq. csimpl.
  rewrite (ChallengeProofs.mapM_fmap_to Json.as_num Json.Num id) by done.
  by rewrite list_fmap_id.
Qed.

(** X26.  The grid handler always answers, and its response names no
    category, no correctness flag and no correct index.  Against the
    session it leaves, a selection is accepted exactly when it consists of
    the three correct indices, in any order; any other selection is told
    to select three images when it has fewer, and that it is wrong when it
    has three or more. *)
Theorem grid_challenge_then_verify (picture : string -> Z -> string)
    (g : Random.rng) (session : gmap string Json.t) :
  exists correct response session' g',
    App.generate_image_captcha picture g session
    = Some (response, session', g')
    /\ NoDup correct /\ length correct = 3%nat
    /\ Json.mentions "category" response = false
    /\ Json.mentions "is_correct" response = false
    /\ Json.mentions "correct_indices" response = false
    /\ forall selected,
         let request :=
           Json.Obj [ ("selected_indices",
                       Json.Arr (Json.Num <$> selected)) ] in
         (selected ≡ₚ correct ->
          App.verify_image_captcha_request request session'
          = Some (App.reply true "Correct! All images selected correctly."))
         /\ (~ selected ≡ₚ correct ->
             App.verify_image_captcha_request request session'
             = Some (App.reply false
                       (if Z.of_nat (length selected) <? 3
                        then "Please select 3 images."
                        else "Wrong selection. Try again."))).
Proof.
  destruct (generate_image_captcha_shape picture g session)
    as (correct & response & g' & Hgen & Hnd & Hlen & _).
  destruct (ChallengeProofs.grid_response_keys _ _ _ _ _ _ Hgen)
    as (_ & Hcat & Hflag & Hidx).
  exists correct, response, (stored correct session), g'.
  split; [exact Hgen|]. split; [exact Hnd|]. split; [exact Hlen|].
  split; [exact Hcat|]. split; [exact Hflag|]. split; [exact Hidx|].
  intros selected. cbv zeta. rewrite verify_stored.
  unfold App.verify_image_captcha.
  assert (sorted selected = sorted (sorted correct) <-> selected ≡ₚ correct)
    as Hiff.
  { rewrite GridProofs.sorted_eq_Permutation. unfold sorted.
    by rewrite merge_sort_Permutation. }
  split.
  - intros Hp. by rewrite decide_True by (by apply Hiff).
  - intros Hp. rewrite decide_False by (by rewrite Hiff).
    by destruct (Z.of_nat (length selected) <? 3).
Qed.

End GridBehaviour.

(** ** More on the Unsplash client *)

Module UnsplashBehaviour.

Import ImageCache UnsplashClient UnsplashProofs.

Lemma get_cached_images_length category count size g st :
  (length (get_cached_images category count (Some size) g st).1.1
   <= count)%nat.
Proof.
  unfold get_cached_images, _get_category_dir.
  destruct (glob_images _) as [|f fs]; [simpl; lia|].
  pose proof (CacheBehaviour.sample_length (f :: fs)
                (count `min` length (f :: fs)) g) as [Hs _].
  destruct (Random.sample _ _ g) as [selected g1].
  pose proof (CacheBehaviour.load_images (sanitize category) size selected
                (mkdir (sanitize category) st)) as [Hl _].
  destruct (load _ _ selected _) as [images st2]. simpl in *. lia.
Qed.

Lemma cached_images_length category count size w :
  (length (cached_images category count size w).1 <= count)%nat.
Proof.
  unfold cached_images.
  pose proof (get_cached_images_length category count size (gen w)
                (cache w)) as H.
  by destruct (get_cached_images _ _ _ _ _) as [[? ?] ?].
Qed.

(** X21.  [get_images_by_query] never returns more than [count] images,
    whichever way it obtains them. *)
Theorem get_images_by_query_at_most_count (cfg : config) (net : remote)
    (self : self_t) (query : string) (count : nat) (size : Z * Z)
    (w : world) :
  (length (get_images_by_query cfg net self query count size w).1
   <= count)%nat.
Proof.
  pose proof (cached_images_length query count size) as Hc.
  assert (forall l : list image, (length (take count l) <= count)%nat)
    as Ht by (intros l; rewrite length_take; lia).
  unfold get_images_by_query, bind, ret.
  destruct (use_cache self).
  - destruct (enough_cached query count w) as [[|] w1].
    + pose proof (Hc w1) as H1.
      destruct (cached_images query count size w1) as [imgs w2].
      destruct (count <=? length imgs)%nat; [apply Ht|].
      destruct (cache_only_mode self); [apply Hc|].
      destruct (negb _); [apply Hc|].
      destruct (get net _ w2) as [[|s data] w3]; [apply Hc|].
      destruct (s =? 200); [|apply Hc].
      destruct (collect _ _ _ _ _ _ _ w3) as [images w4]. apply Ht.
    + destruct (cache_only_mode self); [apply Hc|].
      destruct (negb _); [apply Hc|].
      destruct (get net _ w1) as [[|s data] w3]; [apply Hc|].
      destruct (s =? 200); [|apply Hc].
      destruct (collect _ _ _ _ _ _ _ w3) as [images w4]. apply Ht.
  - destruct (cache_only_mode self); [apply Hc|].
    destruct (negb _); [apply Hc|].
    destruct (get net _ w) as [[|s data] w3]; [apply Hc|].
    destruct (s =? 200); [|apply Hc].
    destruct (collect _ _ _ _ _ _ _ w3) as [images w4]. apply Ht.
Qed.

Lemma sent_cache_image cfg img category image_id w :
  sent (cache_image cfg img category image_id w).2 = sent w.
Proof.
  unfold cache_image. destruct (savings w) as [|env rest];
    by destruct (save_image _ _ _ _ _ _).
Qed.

Lemma sent_collect cfg net self category size results images w :
  exists urls,
    sent (collect cfg net self category size results images w).2
    = sent w ++ (GetUrl <$> urls)
    /\ (length urls <= length results)%nat.
Proof.
  revert images w. induction results as [|photo rest IH]; intros images w.
  - exists []. simpl. by rewrite app_nil_r.
  - simpl. destruct (or_else _ _) as [image_url|].
    + unfold bind, _download_and_resize.
      destruct (picture net image_url) as [i|]; simpl.
      * set (w1 := {| cache := cache w; gen := gen w; savings := savings w;
                      sent := sent w ++ [GetUrl image_url] |}).
        destruct (use_cache self).
        -- pose proof (sent_cache_image cfg
                         (resize size (convert "RGB" i)) category
                         (id_of photo) w1) as Hs.
           destruct (cache_image _ _ _ _ w1) as [path w2].
           destruct (IH (images ++ [resize size (convert "RGB" i)]) w2)
             as (urls & Hu & Hl).
           exists (image_url :: urls). rewrite Hu. simpl in Hs.
           rewrite Hs. simpl. rewrite <- app_assoc. split; [done|lia].
        -- destruct (IH (images ++ [resize size (convert "RGB" i)]) w1)
             as (urls & Hu & Hl).
           exists (image_url :: urls). rewrite Hu. simpl.
           rewrite <- app_assoc. split; [done|lia].
      * match goal with
        | |- context [collect _ _ _ _ _ rest images ?w1] =>
            destruct (IH images w1) as (urls & Hu & Hl)
        end.
        exists (image_url :: urls). rewrite Hu. simpl.
        rewrite <- app_assoc. split; [done|lia].
    + destruct (IH images w) as (urls & Hu & Hl).
      exists urls. split; [done|]. simpl. lia.
Qed.

(** The search request is not sent when the client is in cache-only
    mode or has no API key. *)
Lemma offline_query_sends_nothing cfg net self query count size w :
  cache_only_mode self = true \/ truthy (api_key self) = false ->
  sent (get_images_by_query cfg net self query count size w).2 = sent w.
Proof.
  intros Hoff.
  unfold get_images_by_query, bind, ret.
  destruct (use_cache self).
  - pose proof (sent_enough_cached query count w) as He.
    destruct (enough_cached query count w) as [[|] w1]; simpl in He.
    + pose proof (sent_cached_images query count size w1) as Hs.
      destruct (cached_images query count size w1) as [imgs w2].
      simpl in Hs. destruct (count <=? length imgs)%nat; [simpl; congruence|].
      destruct Hoff as [-> | ->]; simpl.
      * rewrite sent_cached_images. congruence.
      * destruct (cache_only_mode self); rewrite sent_cached_images;
          congruence.
    + destruct Hoff as [-> | ->]; simpl.
      * rewrite sent_cached_images. congruence.
      * destruct (cache_only_mode self); rewrite sent_cached_images;
          congruence.
  - destruct Hoff as [-> | ->]; simpl.
    + apply sent_cached_images.
    + destruct (cache_only_mode self); apply sent_cached_images.
Qed.

(** X20.  A client without an API key ([None] or the empty string) sends
    no request, from [get_random_image] or from [get_images_by_query],
    whatever its cache settings. *)
Theorem no_api_key_sends_nothing (cfg : config) (net : remote)
    (self : self_t) (w : world) :
  truthy (api_key self) = false ->
  (forall query size,
      sent (get_random_image cfg net self query size w).2 = sent w)
  /\ (forall query count size,
         sent (get_images_by_query cfg net self query count size w).2
         = sent w).
Proof.
  intros Hkey. split.
  - intros query size. unfold get_random_image, bind, ret. rewrite Hkey.
    destruct (use_cache self).
    + pose proof (sent_cached_images (category_of query) 1 size w) as Hs.
      destruct (cached_images _ _ _ w) as [[|img imgs] w']; simpl in *;
        [|done]. by destruct (cache_only_mode self).
    + simpl. by destruct (cache_only_mode self).
  - intros query count size. apply offline_query_sends_nothing. by right.
Qed.

Lemma no_api_key_sends_nothing_witness :
  sent (get_random_image (default_config "image_cache") online
          {| api_key := Some ""; use_cache := true;
             cache_only_mode := false |}
          (Some "car") (300, 300) (world_of stocked)).2 = []
  /\ sent (get_images_by_query (default_config "image_cache") online
             {| api_key := None; use_cache := false;
                cache_only_mode := false |}
             "car" 3 (120, 120) (world_of stocked)).2 = [].
Proof.
  split.
  - apply (proj1 (no_api_key_sends_nothing (default_config "image_cache")
                    online
                    {| api_key := Some ""; use_cache := true;
                       cache_only_mode := false |}
                    (world_of stocked) eq_refl) (Some "car") (300, 300)).
  - apply (proj2 (no_api_key_sends_nothing (default_config "image_cache")
                    online
                    {| api_key := None; use_cache := false;
                       cache_only_mode := false |}
                    (world_of stocked) eq_refl) "car" 3%nat (120, 120)).
Defined.

(** *** Cache misses *)

(** The API call did not come back with status 200. *)
Definition failed (r : reply) : Prop :=
  match r with
  | Raised => True
  | Response status_code _ => status_code <> 200
  end.

(** The world once the directory of [category] has been looked up. *)
Definition opened (category : string) (w : world) : world :=
  {| cache := mkdir (sanitize category) (cache w); gen := gen w;
     savings := savings w; sent := sent w |}.

(** The number of image files held for [category]. *)
Definition held (category : string) (w : world) : nat :=
  (get_cache_count category (cache w)).1.

Lemma enough_cached_eq category min_count w :
  enough_cached category min_count w
  = ((min_count <=? held category w)%nat, opened category w).
Proof. reflexivity. Qed.

Lemma cache_count_eq category w :
  cache_count category w = (held category w, opened category w).
Proof. reflexivity. Qed.

Lemma held_opened category d w :
  held category (opened d w) = held category w.
Proof.
  unfold held, opened, get_cache_count, _get_category_dir. simpl.
  by rewrite !CacheProofs.listing_mkdir.
Qed.

Lemma load_fst d size selected st st' :
  (load d size selected st).1 = (load d size selected st').1.
Proof.
  revert st st'. induction selected as [|f rest IH]; intros st st'; [done|].
  simpl. destruct (data f) as [img|].
  - specialize (IH st st').
    destruct (load d size rest st), (load d size rest st'). simpl in *.
    by rewrite IH.
  - apply IH.
Qed.

Lemma get_cached_images_mkdir category count size g d st :
  (get_cached_images category count size g (mkdir d st)).1
  = (get_cached_images category count size g st).1.
Proof.
  unfold get_cached_images, _get_category_dir.
  rewrite !CacheProofs.listing_mkdir.
  destruct (glob_images _) as [|f fs]; [done|].
  destruct (Random.sample _ _ g) as [selected g1].
  pose proof (load_fst (sanitize category) size selected
                (mkdir (sanitize category) (mkdir d st))
                (mkdir (sanitize category) st)) as Hl.
  destruct (load _ _ selected (mkdir _ (mkdir d st))),
    (load _ _ selected (mkdir _ st)). simpl in *. by rewrite Hl.
Qed.

(** The [try] block of [get_images_by_query]. *)
Definition search_remote (cfg : config) (net : remote) (self : self_t)
    (query : string) (count : nat) (size : Z * Z) : M (list image) :=
  do response <- get net (GetSearch query (Z.of_nat count `max` 10)) ;
  match response with
  | Raised => cached_images query count size
  | Response status_code data =>
      if status_code =? 200 then
        do images <-
          collect cfg net self query size
            (default [] (Json.get "results" data ≫= Json.as_arr)) [] ;
        ret (take count images)
      else cached_images query count size
  end.

(** A search that the cache cannot serve goes to the remote source. *)
Lemma query_miss_searches cfg net self query count size w :
  cache_only_mode self = false ->
  truthy (api_key self) = true ->
  use_cache self = false \/ (held query w < count)%nat ->
  get_images_by_query cfg net self query count size w
  = search_remote cfg net self query count size
      (if use_cache self then opened query w else w).
Proof.
  intros Honly Hkey Hmiss.
  unfold get_images_by_query, search_remote. unfold bind at 1.
  destruct (use_cache self).
  - destruct Hmiss as [|Hlt]; [done|]. unfold bind at 1.
    rewrite enough_cached_eq.
    replace (count <=? held query w)%nat with false
      by (symmetry; apply Nat.leb_gt; lia).
    unfold ret at 1. rewrite Honly, Hkey. reflexivity.
  - unfold ret at 1. rewrite Honly, Hkey. reflexivity.
Qed.

Lemma search_remote_sent cfg net self query count size w :
  exists urls,
    sent (search_remote cfg net self query count size w).2
    = sent w ++ GetSearch query (Z.of_nat count `max` 10)
               :: (GetUrl <$> urls).
Proof.
  unfold search_remote, bind, get, ret.
  set (w1 := {| cache := cache w; gen := gen w; savings := savings w;
                sent := sent w ++ [GetSearch query
                                     (Z.of_nat count `max` 10)] |}).
  destruct (api net _) as [|s data].
  - exists []. by rewrite sent_cached_images.
  - destruct (s =? 200).
    + destruct (sent_collect cfg net self query size
                  (default [] (Json.get "results" data ≫= Json.as_arr))
                  [] w1) as (urls & Hu & _).
      exists urls. destruct (collect _ _ _ _ _ _ _ w1) as [images w2].
      simpl in *. rewrite Hu. by rewrite <- app_assoc.
    + exists []. by rewrite sent_cached_images.
Qed.

Lemma search_remote_failed cfg net self query count size w :
  failed (api net (GetSearch query (Z.of_nat count `max` 10))) ->
  sent (search_remote cfg net self query count size w).2
  = sent w ++ [GetSearch query (Z.of_nat count `max` 10)]
  /\ (search_remote cfg net self query count size w).1
     = (get_cached_images query count (Some size) (gen w) (cache w)).1.1.
Proof.
  intros Hfail. unfold search_remote, bind, get.
  set (w1 := {| cache := cache w; gen := gen w; savings := savings w;
                sent := sent w ++ [GetSearch query
                                     (Z.of_nat count `max` 10)] |}).
  assert (sent (cached_images query count size w1).2
          = sent w ++ [GetSearch query (Z.of_nat count `max` 10)]
          /\ (cached_images query count size w1).1
             = (get_cached_images query count (Some size) (gen w)
                  (cache w)).1.1) as Hread.
  { split; [by rewrite sent_cached_images|].
    unfold cached_images. simpl.
    by destruct (get_cached_images _ _ _ _ _) as [[? ?] ?]. }
  unfold failed in Hfail.
  destruct (api net _) as [|s data]; [done|].
  by destruct (Z.eqb_spec s 200).
Qed.

(** X22.  A search that the cache cannot serve, by a client with an API
    key and outside cache-only mode, sends one search request, for
    [max(count, 10)] photos, and after it nothing but downloads.  When
    that request fails there is no download, and the answer is what a
    read of the cache gives. *)
Theorem query_miss_asks_remote_once (cfg : config) (net : remote)
    (self : self_t) (query : string) (count : nat) (size : Z * Z)
    (w : world) :
  cache_only_mode self = false ->
  truthy (api_key self) = true ->
  use_cache self = false \/ (held query w < count)%nat ->
  let search := GetSearch query (Z.of_nat count `max` 10) in
  let result := get_images_by_query cfg net self query count size w in
  (exists urls, sent result.2 = sent w ++ search :: (GetUrl <$> urls))
  /\ (failed (api net search) ->
      sent result.2 = sent w ++ [search]
      /\ result.1
         = (get_cached_images query count (Some size) (gen w)
              (cache w)).1.1).
Proof.
  intros Honly Hkey Hmiss search result. subst search result.
  rewrite query_miss_searches by done. split.
  - destruct (search_remote_sent cfg net self query count size
                (if use_cache self then opened query w else w))
      as [urls Hu].
    exists urls. rewrite Hu. by destruct (use_cache self).
  - intros Hfail.
    destruct (search_remote_failed cfg net self query count size
                (if use_cache self then opened query w else w) Hfail)
      as [Hs Hr].
    rewrite Hs, Hr. destruct (use_cache self); [|done]. split; [done|].
    simpl. by rewrite get_cached_images_mkdir.
Qed.

(** A remote source that cannot be reached. *)
Definition unreachable : remote :=
  {| api := fun _ => Raised; picture := fun _ => None |}.

Lemma query_miss_asks_remote_once_witness :
  let w := world_of stocked in
  let result :=
    get_images_by_query (default_config "image_cache") unreachable
      (client true false) "car" 1 (120, 120) w in
  sent result.2 = sent w ++ [GetSearch "car" (Z.of_nat 1 `max` 10)]
  /\ result.1
     = (get_cached_images "car" 1 (Some (120, 120)) (gen w) (cache w)).1.1.
Proof.
  assert (held "car" (world_of stocked) < 1)%nat as Hlt
    by (vm_compute; lia).
  destruct (query_miss_asks_remote_once (default_config "image_cache")
              unreachable (client true false) "car" 1 (120, 120)
              (world_of stocked) eq_refl eq_refl (or_intror Hlt))
    as [_ Hfail].
  exact (Hfail I).
Defined.

(** *** Serving from the cache, and prefetching *)






(** The world after [prefetch_category]. *)
Lemma prefetch_category_world cfg net self query count size w :
  (prefetch_category cfg net self query count size w).2
  = if (held query w <? count)%nat
    then (get_images_by_query cfg net self query (count - held query w)
            size (opened query w)).2
    else opened query w.
Proof.
  unfold prefetch_category. unfold bind at 1. rewrite cache_count_eq.
  destruct (held query w <? count)%nat; [|done].
  unfold bind, ret. by destruct (get_images_by_query _ _ _ _ _ _ _).
Qed.



(** X24.  [prefetch_category] sends nothing when the category already
    holds [count] images, when the client is in cache-only mode, or when it
    has no API key.  Otherwise, unless the cache can serve the difference,
    it sends one search request, for the images that are missing and for
    ten at least, and after it nothing but downloads. *)
Theorem prefetch_category_requests (cfg : config) (net : remote)
    (self : self_t) (query : string) (count : nat) (size : Z * Z)
    (w : world) :
  let after := (prefetch_category cfg net self query count size w).2 in
  ((count <= held query w)%nat
   \/ cache_only_mode self = true
   \/ truthy (api_key self) = false ->
   sent after = sent w)
  /\ (cache_only_mode self = false ->
      truthy (api_key self) = true ->
      (held query w < count)%nat ->
      use_cache self = false \/ (2 * held query w < count)%nat ->
      exists urls,
        sent after
        = sent w
          ++ GetSearch query (Z.of_nat (count - held query w) `max` 10)
             :: (GetUrl <$> urls)).
Proof.
  cbv zeta. rewrite prefetch_category_world. split.
  - intros Hidle.
    destruct (Nat.ltb_spec (held query w) count) as [Hlt|Hge]; [|done].
    destruct Hidle as [Hle|Hoff]; [lia|].
    by rewrite offline_query_sends_nothing.
  - intros Honly Hkey Hlt Hmiss.
    replace (held query w <? count)%nat with true
      by (symmetry; apply Nat.ltb_lt; lia).
    rewrite query_miss_searches; [|done|done|].
    + destruct (search_remote_sent cfg net self query
                  (count - held query w) size
                  (if use_cache self then opened query (opened query w)
                   else opened query w)) as [urls Hu].
      exists urls. rewrite Hu. by destruct (use_cache self).
    + rewrite held_opened. destruct Hmiss; [by left|right; lia].
Qed.

Lemma prefetch_category_requests_witness :
  let w := world_of stocked in
  let cfg := default_config "image_cache" in
  sent (prefetch_category cfg online (client true false) "random" 1
          (120, 120) w).2 = sent w
  /\ exists urls,
       sent (prefetch_category cfg online (client true false) "random" 3
               (120, 120) w).2
       = sent w
         ++ GetSearch "random"
              (Z.of_nat (3 - held "random" w) `max` 10)
            :: (GetUrl <$> urls).
Proof.
  split.
  - apply (proj1 (prefetch_category_requests (default_config "image_cache")
                    online (client true false) "random" 1 (120, 120)
                    (world_of stocked))).
    left. vm_compute. lia.
  - apply (proj2 (prefetch_category_requests (default_config "image_cache")
                    online (client true false) "random" 3 (120, 120)
                    (world_of stocked)));
      [reflexivity|reflexivity|vm_compute; lia|right; vm_compute; lia].
Defined.

(** *** Fetching a random image *)








End UnsplashBehaviour.
